(** * aztfy: the quiet-mode batch import path of [main.go]

    A shallow embedding of [main] and [batchImport] together with the
    part of Go's [fmt] package that [batchImport] relies on, followed
    by the properties of the orchestration loop. *)

From Stdlib Require Import Ascii NArith Bool Lia.
From Stdlib Require String.
From stdpp Require Import base list strings sorting.

(** Strings of Go are byte sequences; [string] of the Standard Library
    is the same thing, one [ascii] per byte. *)
Abbreviation bytes := (list ascii).

Definition nl : string := String (ascii_of_nat 10) EmptyString.

(* ===================================================================== *)
(** ** Go's [fmt] with an empty operand list

    [batchImport] calls [fmt.Errorf(msg)]: the message is handed over as
    the FORMAT, with no operand.  [Fmt.doPrintf] is the method [doPrintf] of the
    printer in Go's [fmt/print.go], specialised to [len(a) = 0]; the width and
    precision values, which only influence how an operand is printed,
    are parsed and dropped. *)
Module Fmt.

Local Open Scope list_scope.
Local Open Scope char_scope.
Local Open Scope N_scope.

Definition byteval (c : ascii) : N := N_of_ascii c.

Definition percentBangString : bytes := String.list_ascii_of_string "%!".
Definition missingString : bytes := String.list_ascii_of_string "(MISSING)".
Definition badIndexString : bytes := String.list_ascii_of_string "(BADINDEX)".
Definition noVerbString : bytes := String.list_ascii_of_string "%!(NOVERB)".
Definition badWidthString : bytes := String.list_ascii_of_string "%!(BADWIDTH)".
Definition badPrecString : bytes := String.list_ascii_of_string "%!(BADPREC)".

(** [for i < end && format[i] != '%' { i++ }]: the text before the next
    percent sign, and the format from that sign on. *)
Fixpoint literal (s : bytes) : bytes * bytes :=
  match s with
  | [] => ([], [])
  | c :: t =>
      if Ascii.eqb c "%" then ([], s)
      else let (l, r) := literal t in (c :: l, r)
  end.

(** The [simpleFormat] loop: flags are consumed; with no operand the
    fast path for a lower-case verb is never taken. *)
Definition isFlag (c : ascii) : bool :=
  Ascii.eqb c "#" || Ascii.eqb c "0" || Ascii.eqb c "+"
  || Ascii.eqb c "-" || Ascii.eqb c " ".

Fixpoint skipFlags (s : bytes) : bytes :=
  match s with
  | [] => []
  | c :: t => if isFlag c then skipFlags t else s
  end.

Definition isDigit (c : ascii) : bool :=
  (48 <=? byteval c) && (byteval c <=? 57).

(** [tooLarge]: [x > 1e6] (the operand is never negative here). *)
Definition tooLarge (x : N) : bool := 1000000 <? x.

(** [parsenum(s, start, end)] on the slice [s[start:end]]: the number,
    whether a digit was read, and the slice from [newi] on.  On overflow
    Go returns [newi = end], that is the empty remainder. *)
Fixpoint parsenum_from (num : N) (isnum : bool) (s : bytes)
  : N * bool * bytes :=
  match s with
  | [] => (num, isnum, [])
  | c :: t =>
      if isDigit c then
        if tooLarge num then (0, false, [])
        else parsenum_from (num * 10 + (byteval c - 48)) true t
      else (num, isnum, s)
  end.

Definition parsenum (s : bytes) : N * bool * bytes := parsenum_from 0 false s.

(** The bytes before the first [']'] and the bytes after it. *)
Fixpoint untilBracket (s : bytes) : option (bytes * bytes) :=
  match s with
  | [] => None
  | c :: t =>
      if Ascii.eqb c "]" then Some ([], t)
      else match untilBracket t with
           | Some (inside, after) => Some (c :: inside, after)
           | None => None
           end
  end.

(** [parseArgNumber(format)] where [format[0] = '[']; the argument is the
    format after that bracket.  Result: [ok] and the format after the
    [wid] consumed bytes. *)
Definition parseArgNumber (t : bytes) : bool * bytes :=
  if (length t <? 2)%nat then (false, t)
  else match untilBracket t with
       | None => (false, t)
       | Some (inside, after) =>
           let '(_, ok, rest) := parsenum inside in
           match rest with
           | [] => (ok, after)
           | _ :: _ => (false, after)
           end
       end.

(** [argNumber] with [numArgs = 0]: an explicit index is never in range,
    so [goodArgNum] is cleared whenever a bracket is met.  Result: the
    remaining format, [found], and the new [goodArgNum]. *)
Definition argNumber (s : bytes) (good : bool) : bytes * bool * bool :=
  match s with
  | c :: t =>
      if Ascii.eqb c "[" then
        let (ok, rest) := parseArgNumber t in (rest, ok, false)
      else (s, false, good)
  | [] => (s, false, good)
  end.

(** [utf8.DecodeRuneInString] followed by [writeRune]: a well-formed
    encoding is copied, anything else is one byte read and U+FFFD
    written. *)
Definition runeError : bytes :=
  [ascii_of_N 239; ascii_of_N 191; ascii_of_N 189].

Definition inRange (lo hi : N) (c : ascii) : bool :=
  (lo <=? byteval c) && (byteval c <=? hi).

(** [first[s0]] and [acceptRanges]: size of the encoding and the range
    accepted for its second byte. *)
Definition leading (c : ascii) : option (nat * N * N) :=
  let b := byteval c in
  if (194 <=? b) && (b <=? 223) then Some (2%nat, 128, 191)
  else if b =? 224 then Some (3%nat, 160, 191)
  else if (225 <=? b) && (b <=? 236) then Some (3%nat, 128, 191)
  else if b =? 237 then Some (3%nat, 128, 159)
  else if (238 <=? b) && (b <=? 239) then Some (3%nat, 128, 191)
  else if b =? 240 then Some (4%nat, 144, 191)
  else if (241 <=? b) && (b <=? 243) then Some (4%nat, 128, 191)
  else if b =? 244 then Some (4%nat, 128, 143)
  else None.

Definition decodeVerb (c : ascii) (t : bytes) : bytes * bytes :=
  if byteval c <? 128 then ([c], t)
  else
    match leading c with
    | None => (runeError, t)
    | Some (sz, lo, hi) =>
        match sz, t with
        | 2%nat, c1 :: t1 =>
            if inRange lo hi c1 then ([c; c1], t1) else (runeError, t)
        | 3%nat, c1 :: c2 :: t2 =>
            if inRange lo hi c1 && inRange 128 191 c2
            then ([c; c1; c2], t2) else (runeError, t)
        | 4%nat, c1 :: c2 :: c3 :: t3 =>
            if inRange lo hi c1 && inRange 128 191 c2 && inRange 128 191 c3
            then ([c; c1; c2; c3], t3) else (runeError, t)
        | _, _ => (runeError, t)
        end
    end.

(** "Do we have width?": what is written, the remaining format,
    [afterIndex] and [goodArgNum].  With no operand a star finds no
    integer operand. *)
Definition width (s : bytes) (afterIndex good : bool)
  : bytes * bytes * bool * bool :=
  let number :=
    let '(_, widPresent, s') := parsenum s in
    ([], s', afterIndex, if afterIndex && widPresent then false else good) in
  match s with
  | c :: t =>
      if Ascii.eqb c "*" then (badWidthString, t, false, good) else number
  | [] => number
  end.

(** "Do we have precision?": [if i+1 < end && format[i] == '.'], so a dot
    that ends the format is not a precision but the verb. *)
Definition precision (s : bytes) (afterIndex good : bool)
  : bytes * bytes * bool * bool :=
  match s with
  | c :: t =>
      if (1 <? length s)%nat && Ascii.eqb c "." then
        let good := if afterIndex then false else good in
        let '(t, afterIndex, good) := argNumber t good in
        let number :=
          let '(_, _, u) := parsenum t in ([], u, afterIndex, good) in
        match t with
        | c' :: u =>
            if Ascii.eqb c' "*" then (badPrecString, u, false, good)
            else number
        | [] => number
        end
      else ([], s, afterIndex, good)
  | [] => ([], s, afterIndex, good)
  end.

(** "Process one verb": the format just after a percent sign.  Result:
    what is written, and the format left ([None] for the [break] on a
    format that ends inside the verb). *)
Definition verb (s : bytes) : bytes * option bytes :=
  let s := skipFlags s in
  let '(s, afterIndex, good) := argNumber s true in
  let '(out1, s, afterIndex, good) := width s afterIndex good in
  let '(out2, s, afterIndex, good) := precision s afterIndex good in
  let '(s, _, good) :=
    if afterIndex then (s, afterIndex, good) else argNumber s good in
  match s with
  | [] => (out1 ++ out2 ++ noVerbString, None)
  | c :: t =>
      let (v, rest) := decodeVerb c t in
      let out3 :=
        if Ascii.eqb c "%" then ["%"]
        else if good then percentBangString ++ v ++ missingString
        else percentBangString ++ v ++ badIndexString in
      (out1 ++ out2 ++ out3, Some rest)
  end.

(** [formatLoop]: every turn consumes at least the percent sign, so
    [length format + 1] turns are always enough (see [doPrintf_fuel]). *)
Fixpoint formatLoop (fuel : nat) (s : bytes) : bytes :=
  match fuel with
  | O => []
  | S fuel' =>
      let (lit, r) := literal s in
      match r with
      | [] => lit
      | _ :: afterPercent =>
          let (out, next) := verb afterPercent in
          lit ++ out ++
          match next with
          | None => []
          | Some s' => formatLoop fuel' s'
          end
      end
  end.

Definition doPrintf (format : string) : string :=
  let s := String.list_ascii_of_string format in
  String.string_of_list_ascii (formatLoop (S (length s)) s).

(** [fmt.Errorf(format)] with no operand: [errors.New] of what
    [doPrintf] wrote.  An error is represented by its [Error()] text. *)
Definition Errorf (format : string) : string := doPrintf format.

Definition hasPercent (s : string) : bool :=
  existsb (fun c => Ascii.eqb c "%") (String.list_ascii_of_string s).

End Fmt.

(* ===================================================================== *)
(** ** Data of the run *)

(** A Go [error] is represented by its [Error()] text; [nil] is [None]. *)
Abbreviation error := string.

(** Modelled from the spec: the type [meta.ImportItem], declared in
    [internal/meta], is not part of the sources at hand.  [batchImport]
    uses its fields [ResourceID] and [ImportError] and its methods
    [Skip()] and [TFAddr()]; the spec's [ResourceRecord] gives the record
    a [mappingPresent] flag (a record is skipped exactly when it is
    false) and a [targetAddress]. *)
Record ImportItem := mkItem {
  ResourceID : string;
  mappingPresent : bool;
  targetAddress : string;
  ImportError : option error
}.

Definition Skip (item : ImportItem) : bool := negb (mappingPresent item).
Definition TFAddr (item : ImportItem) : string := targetAddress item.

(** Modelled from the spec: the type [config.Config] of
    [internal/config]; [batchImport] reads [Logfile] only. *)
Record Config := mkConfig {
  ResourceGroup : string;
  OutputDir : string;
  MappingFile : string;
  Pattern : string;
  Logfile : string
}.

(** The parsed command line: the six flag variables and [flag.Args()]. *)
Record Flags := mkFlags {
  flagVersion : bool;
  flagOutputDir : string;
  flagMappingFile : string;
  flagContinue : bool;
  flagQuietMode : bool;
  flagPattern : string;
  Args : list string
}.

Inductive OpenFlag := O_WRONLY | O_CREATE | O_APPEND.

(** A [log.Logger]: where it writes and its prefix.  The time stamp that
    [log.LstdFlags] puts before each line is not represented. *)
Inductive Sink := Stderr | ToFile (name : string).
Record Logger := mkLogger { out : Sink; prefix : string }.

(** What a run does to the outside, in the order it does it.  A call of
    a collaborator is recorded with its operands and with what it
    returned: the error (or [None] for [nil]), the slice for
    [ListResource], and for [Import] the slot [i] of the pointer
    [&list[i]], the record found there and the record left there. *)
Inductive Event :=
| EvLogDiscard
| EvOpenFile (name : string) (flags : list OpenFlag) (perm : N)
    (err : option error)
| EvLog (logger : Logger) (line : string)
| EvStdout (text : string)
| EvStderr (text : string)
| EvPrintDefaults
| EvNewConfig (rg outputDir mappingFile pattern : string)
    (err : option error)
| EvNewMeta (cfg : Config) (err : option error)
| EvInit (err : option error)
| EvListResource (lst : list ImportItem)
| EvImport (i : nat) (before after : ImportItem)
| EvGenerateCfg (lst : list ImportItem) (err : option error)
| EvNewProgram (cfg : Config) (err : option error)
| EvStart (err : option error).

Definition errOf {A} (r : A + error) : option error :=
  match r with
  | inl _ => None
  | inr err => Some err
  end.

(** The collaborators of [main.go].  [World] is everything outside the
    process (file system, cloud, Terraform state) together with the state
    hidden behind the [meta.Meta] and [ui] handles; each call maps the
    world before to the world after and what the call returned.
    [Import] receives the record behind the pointer [&list[i]] and
    returns the record it leaves there. *)
Record Env := mkEnv {
  World : Type;
  Meta : Type;
  Program : Type;
  version : string;
  OpenFile : World -> string -> list OpenFlag -> N -> World * option error;
  NewConfig : World -> string -> string -> string -> string ->
              World * (Config + error);
  NewMeta : World -> Config -> World * (Meta + error);
  Init : World -> Meta -> World * option error;
  ListResource : World -> Meta -> World * list ImportItem;
  Import : World -> Meta -> ImportItem -> World * ImportItem;
  GenerateCfg : World -> Meta -> list ImportItem -> World * option error;
  NewProgram : World -> Config -> World * (Program + error);
  Start : World -> Program -> World * option error
}.

(* ===================================================================== *)
(** ** A monad for the control flow of a Go function

    A computation threads the world, appends to the trace, and either
    goes on with a value, leaves the enclosing function with [Return]
    (a [return] statement, or [os.Exit] in [main]), or panics. *)
Inductive result (R A : Type) :=
| Val (a : A)
| Return (r : R)
| Panic.
Arguments Val {R A} a.
Arguments Return {R A} r.
Arguments Panic {R A}.

Definition M (W R A : Type) : Type := W -> W * list Event * result R A.

Definition ret {W R A} (a : A) : M W R A := fun w => (w, [], Val a).

Definition bind {W R A B} (m : M W R A) (k : A -> M W R B) : M W R B :=
  fun w =>
    match m w with
    | (w1, t1, Val a) =>
        match k a w1 with (w2, t2, r) => (w2, t1 ++ t2, r) end
    | (w1, t1, Return r) => (w1, t1, Return r)
    | (w1, t1, Panic) => (w1, t1, Panic)
    end.

Definition emit {W R} (e : Event) : M W R unit := fun w => (w, [e], Val tt).

Definition returnWith {W R A} (r : R) : M W R A := fun w => (w, [], Return r).

Definition panic {W R A} : M W R A := fun w => (w, [], Panic).

(** A call of an outside operation [f], logged as [ev] applied to what it
    returned. *)
Definition call {W R A} (f : W -> W * A) (ev : A -> Event) : M W R A :=
  fun w => match f w with (w1, a) => (w1, [ev a], Val a) end.

(** A call of a Go function returning [error] from another function. *)
Definition invoke {W R} (f : M W error unit) : M W R (option error) :=
  fun w =>
    match f w with
    | (w1, t, Val _) => (w1, t, Val None)
    | (w1, t, Return e) => (w1, t, Val (Some e))
    | (w1, t, Panic) => (w1, t, Panic)
    end.

Declare Scope go_scope.
Delimit Scope go_scope with go.
Notation "'let*' x ':=' m 'in' k" := (bind m (fun x => k))
  (at level 10, x name, m at level 100, k at level 200) : go_scope.
Notation "m >> k" := (bind m (fun _ => k))
  (at level 100, k at level 200, right associativity) : go_scope.

(** [for i := range list]: the length is read once, then the body runs
    for [i = 0 .. len-1] on the state left by the turn before. *)
Fixpoint rangeLoop {W R S} (idx : list nat) (body : nat -> S -> M W R S)
  (s : S) : M W R S :=
  match idx with
  | [] => ret s
  | i :: idx' => bind (body i s) (rangeLoop idx' body)
  end.

(* ===================================================================== *)
(** ** [main.go] *)

Definition usage : string := "aztfy [option] <resource group name>" +:+ nl.

Section Program.

Variable E : Env.

Local Open Scope go_scope.

Abbreviation Go := (M (World E)).

Definition Println {R} (logger : Logger) (s : string) : Go R unit :=
  emit (EvLog logger (s +:+ nl)).

(** [logger.Printf]: [line] is the text the constant format and its
    operands produce. *)
Definition Printf {R} (logger : Logger) (line : string) : Go R unit :=
  emit (EvLog logger line).

(** [fmt.Sprintf("Failed to import %s as %s: %v", ...)], evaluated on the
    record as [Import] left it. *)
Definition failureMsg (item : ImportItem) (err : error) : string :=
  "Failed to import " +:+ ResourceID item +:+ " as " +:+ TFAddr item
  +:+ ": " +:+ err.

Definition warnLine (item : ImportItem) : string :=
  "[WARN] No mapping information for resource: " +:+ ResourceID item
  +:+ ", skip it" +:+ nl.

Definition importingLine (item : ImportItem) : string :=
  "Importing " +:+ ResourceID item +:+ " as " +:+ TFAddr item +:+ nl.

(** The body of the import loop for index [i]; [lst] is the slice as the
    turns before left it, and the result is the slice after this turn. *)
Definition importBody (c : Meta E) (continueOnError : bool) (logger : Logger)
  (i : nat) (lst : list ImportItem) : Go error (list ImportItem) :=
  match lst !! i with
  | None => panic
  | Some item =>
      if Skip item then
        Printf logger (warnLine item) >>
        ret lst
      else
        Printf logger (importingLine item) >>
        let* item' := call (fun w => Import E w c item) (EvImport i item) in
        let lst := <[i := item']> lst in
        match ImportError item' with
        | Some err =>
            let msg := failureMsg item' err in
            if negb continueOnError then
              returnWith (Fmt.Errorf msg)
            else
              Println logger ("[ERROR] " +:+ msg) >>
              ret lst
        | None => ret lst
        end
  end.

Definition importLoop (c : Meta E) (continueOnError : bool) (logger : Logger)
  (lst : list ImportItem) : Go error (list ImportItem) :=
  rangeLoop (seq 0 (length lst)) (importBody c continueOnError logger) lst.

Definition batchImport (cfg : Config) (continueOnError : bool)
  : Go error unit :=
  emit EvLogDiscard >>
  let* logger :=
    if negb (String.eqb (Logfile cfg) "") then
      let* err :=
        call (fun w => OpenFile E w (Logfile cfg)
                         [O_WRONLY; O_CREATE; O_APPEND] 420%N)
             (EvOpenFile (Logfile cfg)
                         [O_WRONLY; O_CREATE; O_APPEND] 420%N) in
      match err with
      | Some err => returnWith err
      | None => ret (mkLogger (ToFile (Logfile cfg)) "aztfy")
      end
    else ret (mkLogger Stderr "") in
  Println logger "New meta" >>
  let* r := call (fun w => NewMeta E w cfg) (fun r => EvNewMeta cfg (errOf r)) in
  match r with
  | inr err => returnWith err
  | inl c =>
      Println logger "Initialize" >>
      let* err := call (fun w => Init E w c) EvInit in
      match err with
      | Some err => returnWith err
      | None =>
          Println logger "List resources" >>
          let* lst := call (fun w => ListResource E w c) EvListResource in
          Println logger "Import resources" >>
          let* lst := importLoop c continueOnError logger lst in
          Println logger "Generate Terraform configurations" >>
          let* err := call (fun w => GenerateCfg E w c lst)
                           (EvGenerateCfg lst) in
          match err with
          | Some err =>
              returnWith ("generating Terraform configuration: " +:+ err)
          | None => ret tt
          end
      end
  end.

(** [os.Exit(code)]. *)
Definition Exit {A} (code : N) : Go N A := returnWith code.

Definition fatal {A} (err : error) : Go N A :=
  emit (EvStderr (err +:+ nl)) >>
  Exit 1%N.

(** [flag.Usage], as [main] sets it; [flag.CommandLine.Output()] is the
    standard error stream, [main] never redirects it. *)
Definition Usage : Go N unit :=
  emit (EvStderr (usage +:+ nl)) >>
  emit EvPrintDefaults.

Definition when {R} (b : bool) (m : Go R unit) : Go R unit :=
  if b then m else ret tt.

(** [main], from the statement after [flag.Parse()] on. *)
Definition main (fl : Flags) : Go N unit :=
  when (flagVersion fl)
    (emit (EvStdout (version E +:+ nl)) >> Exit 0%N) >>
  when (negb (length (Args fl) =? 1))
    (Usage >> Exit 1%N) >>
  when (flagQuietMode fl && String.eqb (flagMappingFile fl) "")
    (fatal "`-q` must be used together with `-m`") >>
  when (flagContinue fl && negb (flagQuietMode fl))
    (fatal "`-k` must be used together with `-q`") >>
  match Args fl !! 0 with
  | None => panic
  | Some rg =>
      let* r :=
        call (fun w => NewConfig E w rg (flagOutputDir fl)
                         (flagMappingFile fl) (flagPattern fl))
             (fun r => EvNewConfig rg (flagOutputDir fl)
                         (flagMappingFile fl) (flagPattern fl) (errOf r)) in
      match r with
      | inr err => fatal err
      | inl cfg =>
          if flagQuietMode fl then
            let* err := invoke (batchImport cfg (flagContinue fl)) in
            match err with
            | Some err => fatal err
            | None => ret tt
            end
          else
            let* r := call (fun w => NewProgram E w cfg)
                           (fun r => EvNewProgram cfg (errOf r)) in
            match r with
            | inr err => fatal err
            | inl prog =>
                let* err := call (fun w => Start E w prog) EvStart in
                match err with
                | Some err => fatal err
                | None => ret tt
                end
            end
      end
  end.

(** The exit status of the process: [0] when [main] returns. *)
Definition exitCode (r : result N unit) : option N :=
  match r with
  | Val _ => Some 0%N
  | Return code => Some code
  | Panic => None
  end.

End Program.

Arguments Println {E R} logger s.
Arguments Printf {E R} logger line.
Arguments Exit {E A} code.
Arguments fatal {E A} err.
Arguments when {E R} b m.

(* ===================================================================== *)
(** ** Reading a trace *)

(** The slots handed to [Import], in call order. *)
Fixpoint importCalls (tr : list Event) : list nat :=
  match tr with
  | [] => []
  | EvImport i _ _ :: tr' => i :: importCalls tr'
  | _ :: tr' => importCalls tr'
  end.

(** The slices handed to [GenerateCfg], in call order. *)
Fixpoint generateCalls (tr : list Event) : list (list ImportItem) :=
  match tr with
  | [] => []
  | EvGenerateCfg lst _ :: tr' => lst :: generateCalls tr'
  | _ :: tr' => generateCalls tr'
  end.

(** The engine operations of a trace, without their operands. *)
Inductive Phase := PNewMeta | PInit | PListResource | PImport | PGenerateCfg.

Fixpoint phases (tr : list Event) : list Phase :=
  match tr with
  | [] => []
  | EvNewMeta _ _ :: tr' => PNewMeta :: phases tr'
  | EvInit _ :: tr' => PInit :: phases tr'
  | EvListResource _ :: tr' => PListResource :: phases tr'
  | EvImport _ _ _ :: tr' => PImport :: phases tr'
  | EvGenerateCfg _ _ :: tr' => PGenerateCfg :: phases tr'
  | _ :: tr' => phases tr'
  end.

(** Events that only write to the standard error stream. *)
Definition toStderr (e : Event) : bool :=
  match e with
  | EvStderr _ | EvPrintDefaults => true
  | _ => false
  end.

(** Before it turns to the engine, [batchImport] silences the global
    logger and opens the log file, nothing else. *)
Definition setupEvent (e : Event) : bool :=
  match e with
  | EvLogDiscard | EvOpenFile _ _ _ _ => true
  | _ => false
  end.

(** The import loop emits log lines and [Import] calls, nothing else. *)
Definition loopEvent (e : Event) : bool :=
  match e with
  | EvLog _ _ | EvImport _ _ _ => true
  | _ => false
  end.

(** The line [logger.Println("[ERROR] " + msg)] writes. *)
Definition errorLine (logger : Logger) (item : ImportItem) (err : error)
  : Event :=
  EvLog logger (("[ERROR] " +:+ failureMsg item err) +:+ nl).

(** Slot [j] of [lst] holds a record that is imported, not skipped. *)
Definition attempted (lst : list ImportItem) (j : nat) : bool :=
  match lst !! j with
  | Some item => negb (Skip item)
  | None => false
  end.

(** What identifies a record, apart from the outcome of its import. *)
Definition sameRecord (a b : ImportItem) : Prop :=
  ResourceID a = ResourceID b /\
  mappingPresent a = mappingPresent b /\
  targetAddress a = targetAddress b.

(** [needle] occurs in [hay] as a run of consecutive bytes. *)
Fixpoint contains (needle hay : string) : bool :=
  String.prefix needle hay ||
  match hay with
  | EmptyString => false
  | String _ hay' => contains needle hay'
  end.

(* ===================================================================== *)
(** ** The runs of [batchImport] as a relation

    One constructor per path through the loop body, through the loop and
    through the function; [importBody_step], [importLoop_run] and
    [batchImport_run] below show that the functions above take these
    paths and no other. *)
Section Runs.

Variable E : Env.

Definition openFlags : list OpenFlag := [O_WRONLY; O_CREATE; O_APPEND].

Section Loop.

Variables (c : Meta E) (continueOnError : bool) (logger : Logger).


Inductive bodyStep (i : nat) (lst : list ImportItem) (w : World E)
  : World E * list Event * result error (list ImportItem) -> Prop :=
| StepSkip item :
    lst !! i = Some item -> Skip item = true ->
    bodyStep i lst w (w, [EvLog logger (warnLine item)], Val lst)
| StepImported item w1 item' :
    lst !! i = Some item -> Skip item = false ->
    Import E w c item = (w1, item') -> ImportError item' = None ->
    bodyStep i lst w
      (w1, [EvLog logger (importingLine item); EvImport i item item'],
       Val (<[i := item']> lst))
| StepAbort item w1 item' err :
    lst !! i = Some item -> Skip item = false ->
    Import E w c item = (w1, item') -> ImportError item' = Some err ->
    continueOnError = false ->
    bodyStep i lst w
      (w1, [EvLog logger (importingLine item); EvImport i item item'],
       Return (Fmt.Errorf (failureMsg item' err)))
| StepContinue item w1 item' err :
    lst !! i = Some item -> Skip item = false ->
    Import E w c item = (w1, item') -> ImportError item' = Some err ->
    continueOnError = true ->
    bodyStep i lst w
      (w1, [EvLog logger (importingLine item); EvImport i item item';
            errorLine logger item' err],
       Val (<[i := item']> lst)).

(** [loopRun i n]: the turns for the indices [i .. i+n-1]. *)
Inductive loopRun : nat -> nat -> list ImportItem -> World E ->
  World E * list Event * result error (list ImportItem) -> Prop :=
| RunDone i lst w : loopRun i 0 lst w (w, [], Val lst)
| RunNext i n lst w w1 t1 lst1 w2 t2 r :
    bodyStep i lst w (w1, t1, Val lst1) ->
    loopRun (S i) n lst1 w1 (w2, t2, r) ->
    loopRun i (S n) lst w (w2, t1 ++ t2, r)
| RunStop i n lst w w1 t1 e :
    bodyStep i lst w (w1, t1, Return e) ->
    loopRun i (S n) lst w (w1, t1, Return e).

End Loop.

(** Setting up the logger: the world after, the trace, the logger. *)
Inductive loggerSetup (cfg : Config) (w : World E)
  : World E -> list Event -> Logger -> Prop :=
| SetupStderr :
    Logfile cfg = "" ->
    loggerSetup cfg w w [EvLogDiscard] (mkLogger Stderr "")
| SetupFile w1 :
    Logfile cfg <> "" ->
    OpenFile E w (Logfile cfg) openFlags 420%N = (w1, None) ->
    loggerSetup cfg w w1
      [EvLogDiscard; EvOpenFile (Logfile cfg) openFlags 420%N None]
      (mkLogger (ToFile (Logfile cfg)) "aztfy").

(** The trace from ["New meta"] to the start of the loop. *)
Definition discovery (logger : Logger) (cfg : Config)
  (lst : list ImportItem) : list Event :=
  [EvLog logger ("New meta" +:+ nl); EvNewMeta cfg None;
   EvLog logger ("Initialize" +:+ nl); EvInit None;
   EvLog logger ("List resources" +:+ nl); EvListResource lst;
   EvLog logger ("Import resources" +:+ nl)].

Inductive batchRun (cfg : Config) (continueOnError : bool) (w : World E)
  : World E * list Event * result error unit -> Prop :=
| RunOpenFailed w1 err :
    Logfile cfg <> "" ->
    OpenFile E w (Logfile cfg) openFlags 420%N = (w1, Some err) ->
    batchRun cfg continueOnError w
      (w1, [EvLogDiscard; EvOpenFile (Logfile cfg) openFlags 420%N (Some err)],
       Return err)
| RunNewMetaFailed w0 pre logger w1 err :
    loggerSetup cfg w w0 pre logger ->
    NewMeta E w0 cfg = (w1, inr err) ->
    batchRun cfg continueOnError w
      (w1, pre ++ [EvLog logger ("New meta" +:+ nl); EvNewMeta cfg (Some err)],
       Return err)
| RunInitFailed w0 pre logger w1 c w2 err :
    loggerSetup cfg w w0 pre logger ->
    NewMeta E w0 cfg = (w1, inl c) ->
    Init E w1 c = (w2, Some err) ->
    batchRun cfg continueOnError w
      (w2, pre ++ [EvLog logger ("New meta" +:+ nl); EvNewMeta cfg None;
                   EvLog logger ("Initialize" +:+ nl); EvInit (Some err)],
       Return err)
| RunAborted w0 pre logger w1 c w2 w3 lst w4 ltr err :
    loggerSetup cfg w w0 pre logger ->
    NewMeta E w0 cfg = (w1, inl c) ->
    Init E w1 c = (w2, None) ->
    ListResource E w2 c = (w3, lst) ->
    loopRun c continueOnError logger 0 (length lst) lst w3
      (w4, ltr, Return err) ->
    batchRun cfg continueOnError w
      (w4, pre ++ discovery logger cfg lst ++ ltr, Return err)
| RunGenerated w0 pre logger w1 c w2 w3 lst w4 ltr lst' w5 gerr :
    loggerSetup cfg w w0 pre logger ->
    NewMeta E w0 cfg = (w1, inl c) ->
    Init E w1 c = (w2, None) ->
    ListResource E w2 c = (w3, lst) ->
    loopRun c continueOnError logger 0 (length lst) lst w3
      (w4, ltr, Val lst') ->
    GenerateCfg E w4 c lst' = (w5, gerr) ->
    batchRun cfg continueOnError w
      (w5,
       pre ++ discovery logger cfg lst ++ ltr ++
       [EvLog logger ("Generate Terraform configurations" +:+ nl);
        EvGenerateCfg lst' gerr],
       match gerr with
       | Some err => Return ("generating Terraform configuration: " +:+ err)
       | None => Val tt
       end).

(** From the end of the loop to the end of the run: the result of the
    loop, the world after, the trace, and what [batchImport] returns. *)
Inductive afterLoop (c : Meta E) (logger : Logger) (w4 : World E)
  : result error (list ImportItem) -> World E -> list Event ->
    result error unit -> Prop :=
| LoopAborted err : afterLoop c logger w4 (Return err) w4 [] (Return err)
| LoopCompleted lst' w5 gerr :
    GenerateCfg E w4 c lst' = (w5, gerr) ->
    afterLoop c logger w4 (Val lst') w5
      [EvLog logger ("Generate Terraform configurations" +:+ nl);
       EvGenerateCfg lst' gerr]
      (match gerr with
       | Some err => Return ("generating Terraform configuration: " +:+ err)
       | None => Val tt
       end).

End Runs.

(* ===================================================================== *)
(** ** The runs of [main] as a relation *)

(** Events that only write to the terminal. *)
Definition consoleEvent (e : Event) : bool :=
  match e with
  | EvStdout _ | EvStderr _ | EvPrintDefaults => true
  | _ => false
  end.

(** Events of the interactive program. *)
Definition uiEvent (e : Event) : bool :=
  match e with
  | EvNewProgram _ _ | EvStart _ => true
  | _ => false
  end.

(** Events of [batchImport]. *)
Definition batchEvent (e : Event) : bool :=
  match e with
  | EvLogDiscard | EvOpenFile _ _ _ _ | EvLog _ _ | EvNewMeta _ _
  | EvInit _ | EvListResource _ | EvImport _ _ _ | EvGenerateCfg _ _ => true
  | _ => false
  end.

(** The command line passes the flag sanity check, with [rg] its one
    positional argument. *)
Definition checked (fl : Flags) (rg : string) : Prop :=
  flagVersion fl = false /\
  Args fl = [rg] /\
  (flagQuietMode fl = true -> flagMappingFile fl <> "") /\
  (flagContinue fl = true -> flagQuietMode fl = true).

Definition configEvent (fl : Flags) (rg : string) (err : option error)
  : Event :=
  EvNewConfig rg (flagOutputDir fl) (flagMappingFile fl) (flagPattern fl) err.

Section MainRuns.

Variable E : Env.

Inductive mainRun (fl : Flags) (w : World E)
  : World E * list Event * result N unit -> Prop :=
| MainVersion :
    flagVersion fl = true ->
    mainRun fl w (w, [EvStdout (version E +:+ nl)], Return 0%N)
| MainUsage :
    flagVersion fl = false -> length (Args fl) <> 1 ->
    mainRun fl w
      (w, [EvStderr (usage +:+ nl); EvPrintDefaults], Return 1%N)
| MainQuietWithoutMapping :
    flagVersion fl = false -> length (Args fl) = 1 ->
    flagQuietMode fl = true -> flagMappingFile fl = "" ->
    mainRun fl w
      (w, [EvStderr ("`-q` must be used together with `-m`" +:+ nl)],
       Return 1%N)
| MainContinueWithoutQuiet :
    flagVersion fl = false -> length (Args fl) = 1 ->
    flagContinue fl = true -> flagQuietMode fl = false ->
    mainRun fl w
      (w, [EvStderr ("`-k` must be used together with `-q`" +:+ nl)],
       Return 1%N)
| MainConfigFailed rg w1 err :
    checked fl rg ->
    NewConfig E w rg (flagOutputDir fl) (flagMappingFile fl) (flagPattern fl)
    = (w1, inr err) ->
    mainRun fl w
      (w1, [configEvent fl rg (Some err); EvStderr (err +:+ nl)], Return 1%N)
| MainBatchFailed rg w1 cfg w2 tr err :
    checked fl rg -> flagQuietMode fl = true ->
    NewConfig E w rg (flagOutputDir fl) (flagMappingFile fl) (flagPattern fl)
    = (w1, inl cfg) ->
    batchImport E cfg (flagContinue fl) w1 = (w2, tr, Return err) ->
    mainRun fl w
      (w2, configEvent fl rg None :: tr ++ [EvStderr (err +:+ nl)],
       Return 1%N)
| MainBatchDone rg w1 cfg w2 tr :
    checked fl rg -> flagQuietMode fl = true ->
    NewConfig E w rg (flagOutputDir fl) (flagMappingFile fl) (flagPattern fl)
    = (w1, inl cfg) ->
    batchImport E cfg (flagContinue fl) w1 = (w2, tr, Val tt) ->
    mainRun fl w (w2, configEvent fl rg None :: tr, Val tt)
| MainProgramFailed rg w1 cfg w2 err :
    checked fl rg -> flagQuietMode fl = false ->
    NewConfig E w rg (flagOutputDir fl) (flagMappingFile fl) (flagPattern fl)
    = (w1, inl cfg) ->
    NewProgram E w1 cfg = (w2, inr err) ->
    mainRun fl w
      (w2, [configEvent fl rg None; EvNewProgram cfg (Some err);
            EvStderr (err +:+ nl)],
       Return 1%N)
| MainStartFailed rg w1 cfg w2 prog w3 err :
    checked fl rg -> flagQuietMode fl = false ->
    NewConfig E w rg (flagOutputDir fl) (flagMappingFile fl) (flagPattern fl)
    = (w1, inl cfg) ->
    NewProgram E w1 cfg = (w2, inl prog) ->
    Start E w2 prog = (w3, Some err) ->
    mainRun fl w
      (w3, [configEvent fl rg None; EvNewProgram cfg None;
            EvStart (Some err); EvStderr (err +:+ nl)],
       Return 1%N)
| MainStarted rg w1 cfg w2 prog w3 :
    checked fl rg -> flagQuietMode fl = false ->
    NewConfig E w rg (flagOutputDir fl) (flagMappingFile fl) (flagPattern fl)
    = (w1, inl cfg) ->
    NewProgram E w1 cfg = (w2, inl prog) ->
    Start E w2 prog = (w3, None) ->
    mainRun fl w
      (w3, [configEvent fl rg None; EvNewProgram cfg None; EvStart None],
       Val tt).

End MainRuns.

(* ===================================================================== *)
(** ** A scripted environment

    The world is a script: the records discovery returns, the records
    whose import fails and why, and the error (if any) of every other
    operation; it counts the engine calls made so far. *)
Module Demo.

Record Script := mkScript {
  items : list ImportItem;
  failures : list (string * error);
  openErr : option error;
  newErr : option error;
  initErr : option error;
  genErr : option error;
  engineCalls : nat
}.

Definition tick (w : Script) : Script :=
  mkScript (items w) (failures w) (openErr w) (newErr w) (initErr w)
           (genErr w) (S (engineCalls w)).

Fixpoint failureOf (id : string) (tbl : list (string * error))
  : option error :=
  match tbl with
  | [] => None
  | (id', err) :: tbl' =>
      if String.eqb id id' then Some err else failureOf id tbl'
  end.

Definition env : Env := {|
  World := Script;
  Meta := unit;
  Program := unit;
  version := "v0.1.0";
  OpenFile := fun w _ _ _ => (w, openErr w);
  NewConfig := fun w rg o m p => (w, inl (mkConfig rg o m p ""));
  NewMeta := fun w _ =>
    (tick w, match newErr w with Some e => inr e | None => inl tt end);
  Init := fun w _ => (tick w, initErr w);
  ListResource := fun w _ => (tick w, items w);
  Import := fun w _ item =>
    (tick w, mkItem (ResourceID item) (mappingPresent item)
                    (targetAddress item)
                    (failureOf (ResourceID item) (failures w)));
  GenerateCfg := fun w _ _ => (tick w, genErr w);
  NewProgram := fun w _ => (w, inl tt);
  Start := fun w _ => (w, None)
|}.

Definition A : ImportItem := mkItem "/rg/A" true "azurerm_a.res-0" None.
Definition B : ImportItem := mkItem "/rg/B" true "azurerm_b.res-1" None.
Definition C : ImportItem := mkItem "/rg/C" true "azurerm_c.res-2" None.
Definition U : ImportItem := mkItem "/rg/U" false "" None.

Definition cfg : Config := mkConfig "rg" "out" "map.json" "res-" "".
Definition cfgLog : Config :=
  mkConfig "rg" "out" "map.json" "res-" "/var/log/aztfy.log".

(** [A] imports, [B] fails, [C] would import. *)
Definition script (cause : error) : Script :=
  mkScript [A; B; C] [("/rg/B", cause)] None None None None 0.

(** The same with an unmapped record in front of [B]. *)
Definition scriptU (cause : error) : Script :=
  mkScript [A; U; B; C] [("/rg/B", cause)] None None None None 0.

Definition quiet (v k : bool) (m : string) (args : list string) : Flags :=
  mkFlags v "" m k true "res-" args.

End Demo.

(* ===================================================================== *)
(** ** Properties of the formatter *)

Module FmtFacts.
Import Fmt.

Lemma literal_split s : s = (literal s).1 ++ (literal s).2.
Proof.
  induction s as [|c t IH]; simpl; [reflexivity|].
  destruct (Ascii.eqb c "%"); simpl; [reflexivity|].
  destruct (literal t) as [l r]; simpl in *. now f_equal.
Qed.

Lemma literal_rest_length s : length (literal s).2 <= length s.
Proof.
  rewrite (literal_split s) at 2. rewrite length_app. lia.
Qed.

Lemma literal_plain s :
  existsb (fun c => Ascii.eqb c "%") s = false -> literal s = (s, []).
Proof.
  induction s as [|c t IH]; simpl; [reflexivity|].
  intros H. apply orb_false_iff in H as [Hc Ht].
  rewrite Hc, (IH Ht). reflexivity.
Qed.

Lemma skipFlags_length s : length (skipFlags s) <= length s.
Proof.
  induction s as [|c t IH]; simpl; [lia|].
  destruct (isFlag c); simpl; lia.
Qed.

Lemma parsenum_from_length s : forall num isnum,
  length (parsenum_from num isnum s).2 <= length s.
Proof.
  induction s as [|c t IH]; intros num isnum; simpl; [lia|].
  destruct (isDigit c); simpl; [|lia].
  destruct (tooLarge num); simpl; [lia|].
  specialize (IH (num * 10 + (byteval c - 48))%N true). lia.
Qed.

Lemma parsenum_length s : length (parsenum s).2 <= length s.
Proof. apply parsenum_from_length. Qed.

Lemma untilBracket_length s inside after :
  untilBracket s = Some (inside, after) -> length after < length s.
Proof.
  revert inside after.
  induction s as [|c t IH]; intros inside after; simpl; [discriminate|].
  destruct (Ascii.eqb c "]").
  - intros [= <- <-]. lia.
  - destruct (untilBracket t) as [[i a]|]; [|discriminate].
    intros [= <- <-]. specialize (IH _ _ eq_refl). lia.
Qed.

Lemma parseArgNumber_length t : length (parseArgNumber t).2 <= length t.
Proof.
  unfold parseArgNumber.
  destruct (length t <? 2)%nat; simpl; [lia|].
  destruct (untilBracket t) as [[inside after]|] eqn:Hu; simpl; [|lia].
  apply untilBracket_length in Hu.
  destruct (parsenum inside) as [[n ok] rest].
  destruct rest; simpl; lia.
Qed.

Lemma argNumber_length s good : length (argNumber s good).1.1 <= length s.
Proof.
  unfold argNumber. destruct s as [|c t]; simpl; [lia|].
  destruct (Ascii.eqb c "["); simpl; [|lia].
  pose proof (parseArgNumber_length t) as H.
  destruct (parseArgNumber t) as [ok rest]; simpl in *. lia.
Qed.

Lemma decodeVerb_length c t : length (decodeVerb c t).2 <= length t.
Proof.
  unfold decodeVerb.
  destruct (byteval c <? 128)%N; simpl; [lia|].
  destruct (leading c) as [[[sz lo] hi]|]; simpl; [|lia].
  destruct sz as [|[|[|[|[|sz]]]]]; simpl; try lia;
    destruct t as [|c1 [|c2 [|c3 t3]]]; simpl; try lia;
    repeat match goal with
           | |- context [if ?b then _ else _] => destruct b; simpl
           end; lia.
Qed.

Lemma width_length s afterIndex good :
  length (width s afterIndex good).1.1.2 <= length s.
Proof.
  unfold width. pose proof (parsenum_length s) as Hp.
  destruct (parsenum s) as [[n w] r]; simpl in Hp.
  destruct s as [|c t]; simpl in *; [lia|].
  destruct (Ascii.eqb c "*"); simpl; lia.
Qed.

Lemma precision_length s afterIndex good :
  length (precision s afterIndex good).1.1.2 <= length s.
Proof.
  unfold precision. destruct s as [|c t]; [simpl; lia|].
  destruct ((1 <? length (c :: t))%nat && Ascii.eqb c "."); simpl; [|lia].
  pose proof (argNumber_length t (if afterIndex then false else good)) as Ha.
  destruct (argNumber t (if afterIndex then false else good))
    as [[t0 after0] good0]; simpl in Ha.
  pose proof (parsenum_length t0) as Hp.
  destruct (parsenum t0) as [[n w] r]; simpl in Hp.
  destruct t0 as [|c' u]; simpl in *; [lia|].
  destruct (Ascii.eqb c' "*"); simpl; lia.
Qed.

(** A verb consumes at least the byte of the verb itself. *)
Lemma verb_length s out s' :
  verb s = (out, Some s') -> length s' < length s.
Proof.
  unfold verb.
  pose proof (skipFlags_length s) as H0.
  pose proof (argNumber_length (skipFlags s) true) as H1.
  destruct (argNumber (skipFlags s) true) as [[s1 after1] good1];
    simpl in H1.
  pose proof (width_length s1 after1 good1) as H2.
  destruct (width s1 after1 good1) as [[[out1 s2] after2] good2];
    simpl in H2.
  pose proof (precision_length s2 after2 good2) as H3.
  destruct (precision s2 after2 good2) as [[[out2 s3] after3] good3];
    simpl in H3.
  assert (H4 : length
    (if after3 then (s3, after3, good3) else argNumber s3 good3).1.1
    <= length s3).
  { destruct after3; simpl; [lia|]. apply argNumber_length. }
  destruct (if after3 then (s3, after3, good3) else argNumber s3 good3)
    as [[s4 after4] good4]; simpl in H4.
  destruct s4 as [|c t]; [discriminate|].
  pose proof (decodeVerb_length c t) as H5.
  destruct (decodeVerb c t) as [v rest]; simpl in H5.
  intros [= _ <-]. simpl in H4. lia.
Qed.

(** The loop never needs more turns than the format has bytes. *)
Lemma formatLoop_fuel n : forall s fuel1 fuel2,
  length s <= n -> length s < fuel1 -> length s < fuel2 ->
  formatLoop fuel1 s = formatLoop fuel2 s.
Proof.
  induction n as [|n IH]; intros s fuel1 fuel2 Hn H1 H2;
    (destruct fuel1 as [|f1]; [lia|]); (destruct fuel2 as [|f2]; [lia|]);
    simpl; pose proof (literal_rest_length s) as Hl;
    destruct (literal s) as [lit r]; simpl in Hl;
    (destruct r as [|c after]; [reflexivity|]); simpl in Hl.
  - lia.
  - destruct (verb after) as [out [s'|]] eqn:Hv; [|reflexivity].
    apply verb_length in Hv.
    do 2 f_equal. apply IH; lia.
Qed.

Lemma doPrintf_fuel format fuel :
  String.length format < fuel ->
  String.string_of_list_ascii
    (formatLoop fuel (String.list_ascii_of_string format))
  = doPrintf format.
Proof.
  intros H. unfold doPrintf. f_equal.
  assert (Hlen : length (String.list_ascii_of_string format)
                 = String.length format).
  { clear. induction format as [|c t IH]; simpl; [reflexivity|].
    now f_equal. }
  apply (formatLoop_fuel (String.length format)); lia.
Qed.

(** A format without a percent sign is written out as it stands. *)
Lemma Errorf_plain format :
  hasPercent format = false -> Errorf format = format.
Proof.
  unfold Errorf, doPrintf, hasPercent. intros H. simpl.
  rewrite (literal_plain _ H).
  apply String.string_of_list_ascii_of_string.
Qed.

End FmtFacts.

(* ===================================================================== *)
(** ** The functions take the paths of the relations *)

Section RunFacts.

Variable E : Env.

Lemma importBody_step c k logger i lst w :
  i < length lst ->
  bodyStep E c k logger i lst w (importBody E c k logger i lst w).
Proof.
  intros Hi. unfold importBody.
  destruct (lookup_lt_is_Some_2 lst i Hi) as [item Hitem].
  rewrite Hitem.
  destruct (Skip item) eqn:Hskip.
  - now apply StepSkip.
  - unfold bind, call, Printf, Println, emit, ret, returnWith.
    destruct (Import E w c item) as [w1 item'] eqn:Himp.
    destruct (ImportError item') as [err|] eqn:Herr.
    + destruct k; simpl.
      * now apply StepContinue.
      * now apply StepAbort.
    + simpl. now apply StepImported.
Qed.

Lemma bodyStep_length c k logger i lst w w1 t1 lst1 :
  bodyStep E c k logger i lst w (w1, t1, Val lst1) ->
  length lst1 = length lst.
Proof.
  inversion 1; subst; auto using length_insert.
Qed.

Lemma rangeLoop_run c k logger n : forall i lst w,
  i + n <= length lst ->
  loopRun E c k logger i n lst w
    (rangeLoop (seq i n) (importBody E c k logger) lst w).
Proof.
  induction n as [|n IH]; intros i lst w Hn; simpl.
  - apply RunDone.
  - unfold bind.
    assert (Hi : i < length lst) by lia.
    pose proof (importBody_step c k logger i lst w Hi) as Hstep.
    destruct (importBody E c k logger i lst w) as [[w1 t1] [lst1|e|]].
    + pose proof (bodyStep_length _ _ _ _ _ _ _ _ _ Hstep) as Hlen.
      specialize (IH (S i) lst1 w1 ltac:(lia)).
      destruct (rangeLoop (seq (S i) n) (importBody E c k logger) lst1 w1)
        as [[w2 t2] r].
      eapply RunNext; eassumption.
    + now apply RunStop.
    + inversion Hstep.
Qed.

Lemma importLoop_run c k logger lst w :
  loopRun E c k logger 0 (length lst) lst w (importLoop E c k logger lst w).
Proof. apply rangeLoop_run. lia. Qed.

Lemma loopRun_no_panic c k logger i n lst w w' tr :
  ~ loopRun E c k logger i n lst w (w', tr, Panic).
Proof.
  intros H. remember (w', tr, Panic) as o eqn:Ho.
  revert w' tr Ho.
  induction H as [i lst w|i n lst w w1 t1 lst1 w2 t2 r _ _ IH|];
    intros w' tr Ho; try discriminate.
  injection Ho as -> _ ->. now apply (IH w' t2).
Qed.

Ltac rest_of_run k pre logger Hsetup :=
  match goal with
  | |- context [NewMeta E ?w0 ?cfg] =>
      let w1 := fresh "w1" in
      let c := fresh "c" in
      let e := fresh "e" in
      let Hnew := fresh "Hnew" in
      destruct (NewMeta E w0 cfg) as [w1 [c|e]] eqn:Hnew; simpl;
      [ let w2 := fresh "w2" in
        let Hinit := fresh "Hinit" in
        destruct (Init E w1 c) as [w2 [e|]] eqn:Hinit; simpl;
        [ exact (RunInitFailed E cfg _ _ w0 pre logger w1 c w2 e
                   Hsetup Hnew Hinit)
        | let w3 := fresh "w3" in
          let lst := fresh "lst" in
          let Hlist := fresh "Hlist" in
          destruct (ListResource E w2 c) as [w3 lst] eqn:Hlist; simpl;
          let Hloop := fresh "Hloop" in
          pose proof (importLoop_run c k logger lst w3) as Hloop;
          let w4 := fresh "w4" in
          let ltr := fresh "ltr" in
          let lst' := fresh "lst'" in
          destruct (importLoop E c k logger lst w3)
            as [[w4 ltr] [lst'|e|]]; simpl;
          [ let w5 := fresh "w5" in
            let Hgen := fresh "Hgen" in
            destruct (GenerateCfg E w4 c lst') as [w5 [e|]] eqn:Hgen; simpl;
            [ exact (RunGenerated E cfg _ _ w0 pre logger w1 c w2 w3 lst w4
                       ltr lst' w5 (Some e) Hsetup Hnew Hinit Hlist Hloop Hgen)
            | exact (RunGenerated E cfg _ _ w0 pre logger w1 c w2 w3 lst w4
                       ltr lst' w5 None Hsetup Hnew Hinit Hlist Hloop Hgen) ]
          | try rewrite app_nil_r;
            exact (RunAborted E cfg _ _ w0 pre logger w1 c w2 w3 lst w4
                     ltr e Hsetup Hnew Hinit Hlist Hloop)
          | exfalso; exact (loopRun_no_panic _ _ _ _ _ _ _ _ _ Hloop) ] ]
      | exact (RunNewMetaFailed E cfg _ _ w0 pre logger w1 e Hsetup Hnew) ]
  end.

Lemma batchImport_run cfg k w : batchRun E cfg k w (batchImport E cfg k w).
Proof.
  unfold batchImport, bind, call, Println, emit, ret, returnWith.
  destruct (String.eqb_spec (Logfile cfg) "") as [Hlog|Hlog]; simpl.
  - pose proof (SetupStderr E cfg w Hlog) as Hsetup.
    rest_of_run k [EvLogDiscard] (mkLogger Stderr "") Hsetup.
  - destruct (OpenFile E w (Logfile cfg) [O_WRONLY; O_CREATE; O_APPEND]
                420%N) as [w0 [e|]] eqn:Hopen; simpl.
    + exact (RunOpenFailed E cfg k w w0 e Hlog Hopen).
    + pose proof (SetupFile E cfg w w0 Hlog Hopen) as Hsetup.
      rest_of_run k
        [EvLogDiscard; EvOpenFile (Logfile cfg) openFlags 420%N None]
        (mkLogger (ToFile (Logfile cfg)) "aztfy") Hsetup.
Qed.

End RunFacts.

(* ===================================================================== *)
(** ** Traces *)

Lemma importCalls_app t1 t2 :
  importCalls (t1 ++ t2) = importCalls t1 ++ importCalls t2.
Proof.
  induction t1 as [|e t1 IH]; simpl; [reflexivity|].
  destruct e; simpl; now rewrite ?IH.
Qed.

Lemma generateCalls_app t1 t2 :
  generateCalls (t1 ++ t2) = generateCalls t1 ++ generateCalls t2.
Proof.
  induction t1 as [|e t1 IH]; simpl; [reflexivity|].
  destruct e; simpl; now rewrite ?IH.
Qed.

Lemma phases_app t1 t2 : phases (t1 ++ t2) = phases t1 ++ phases t2.
Proof.
  induction t1 as [|e t1 IH]; simpl; [reflexivity|].
  destruct e; simpl; now rewrite ?IH.
Qed.

Lemma loopEvents_phases tr :
  Forall (fun e => loopEvent e = true) tr ->
  phases tr = repeat PImport (length (importCalls tr)).
Proof.
  induction 1 as [|e tr He _ IH]; simpl; [reflexivity|].
  destruct e; try discriminate; simpl; now rewrite IH.
Qed.

Lemma loopEvents_generateCalls tr :
  Forall (fun e => loopEvent e = true) tr -> generateCalls tr = [].
Proof.
  induction 1 as [|e tr He _ IH]; simpl; [reflexivity|].
  destruct e; try discriminate; exact IH.
Qed.

Lemma loopEvents_In tr e :
  Forall (fun e => loopEvent e = true) tr -> In e tr -> loopEvent e = true.
Proof. intros H Hin. rewrite List.Forall_forall in H. now apply H. Qed.

Lemma importCalls_In tr j :
  In j (importCalls tr) <-> exists b a, In (EvImport j b a) tr.
Proof.
  induction tr as [|e tr IH]; simpl.
  - split; [tauto|]. now intros (b & a & []).
  - destruct e; simpl; rewrite IH; split;
      try (intros (b & a & H); exists b, a; now right);
      try (intros (b & a & [H|H]); [discriminate|now exists b, a]).
    + intros [->|(b & a & H)]; [now eexists _, _; left|].
      exists b, a. now right.
    + intros (b & a & [[= -> _ _]|H]); [now left|]. right. now exists b, a.
Qed.

(** Case analysis on membership in a short explicit trace. *)
Ltac in_cases H :=
  repeat (simpl in H;
          match type of H with
          | _ \/ _ => destruct H as [H|H]
          | False => destruct H
          | In _ (_ ++ _) => apply in_app_iff in H
          end);
  try discriminate H.

(* ===================================================================== *)
(** ** The import loop *)

Section LoopFacts.

Variable E : Env.
Variables (c : Meta E) (k : bool) (logger : Logger).

Abbreviation run := (loopRun E c k logger).
Abbreviation step := (bodyStep E c k logger).

Lemma step_events i lst w o :
  step i lst w o -> Forall (fun e => loopEvent e = true) o.1.2.
Proof. inversion 1; subst; simpl; repeat constructor. Qed.

Lemma run_events i n lst w o :
  run i n lst w o -> Forall (fun e => loopEvent e = true) o.1.2.
Proof.
  induction 1 as [|i n lst w w1 t1 lst1 w2 t2 r Hstep _ IH
                  |i n lst w w1 t1 e Hstep]; simpl in *.
  - constructor.
  - apply List.Forall_app. split; [|exact IH].
    exact (step_events _ _ _ _ Hstep).
  - exact (step_events _ _ _ _ Hstep).
Qed.

(** What a turn imports is the record of its own slot, and that record
    is not a skipped one. *)
Lemma step_imports i lst w o j b a :
  step i lst w o -> In (EvImport j b a) o.1.2 ->
  j = i /\ lst !! i = Some b /\ Skip b = false.
Proof.
  inversion 1; subst; simpl; intros Hin; in_cases Hin;
    injection Hin as <- <- <-; auto.
Qed.

(** A turn leaves the other slots alone. *)
Lemma step_frame i lst w w1 t1 lst1 j :
  step i lst w (w1, t1, Val lst1) -> j <> i -> lst1 !! j = lst !! j.
Proof.
  inversion 1; subst; intros Hj; auto;
    now apply list_lookup_insert_ne.
Qed.

Lemma run_imports i n lst w o :
  run i n lst w o ->
  forall j b a, In (EvImport j b a) o.1.2 ->
  i <= j < i + n /\ lst !! j = Some b /\ Skip b = false.
Proof.
  induction 1 as [|i n lst w w1 t1 lst1 w2 t2 r Hstep _ IH
                  |i n lst w w1 t1 e Hstep]; simpl in *; intros j b a Hin.
  - destruct Hin.
  - apply in_app_iff in Hin as [Hin|Hin].
    + destruct (step_imports _ _ _ _ _ _ _ Hstep Hin) as (-> & Hb & Hs).
      repeat split; auto; lia.
    + destruct (IH _ _ _ Hin) as (Hj & Hb & Hs).
      rewrite (step_frame _ _ _ _ _ _ j Hstep) in Hb by lia.
      repeat split; auto; lia.
  - destruct (step_imports _ _ _ _ _ _ _ Hstep Hin) as (-> & Hb & Hs).
    repeat split; auto; lia.
Qed.

Lemma run_length i n lst w o lst' :
  run i n lst w o -> o.2 = Val lst' -> length lst' = length lst.
Proof.
  induction 1 as [|i n lst w w1 t1 lst1 w2 t2 r Hstep _ IH
                  |i n lst w w1 t1 e Hstep]; simpl in *.
  - now intros [= ->].
  - intros Hr. rewrite (IH Hr).
    exact (bodyStep_length _ _ _ _ _ _ _ _ _ _ Hstep).
  - discriminate.
Qed.

(** After the loop every slot holds the record discovery put there, if
    it was never handed to [Import], or else the record that the import
    of that very slot left. *)
Lemma run_final i n lst w o lst' :
  run i n lst w o -> o.2 = Val lst' ->
  forall j item, lst !! j = Some item ->
  (lst' !! j = Some item /\ ~ In j (importCalls o.1.2)) \/
  exists a, In (EvImport j item a) o.1.2 /\ lst' !! j = Some a.
Proof.
  induction 1 as [|i n lst w w1 t1 lst1 w2 t2 r Hstep Hrun IH
                  |i n lst w w1 t1 e Hstep]; simpl in *.
  - intros [= ->] j item Hj. left. split; [exact Hj|tauto].
  - intros Hr j item Hj.
    assert (Hlater : ~ In i (importCalls t2)).
    { intros Hin. apply importCalls_In in Hin as (b & a & Hin).
      apply (run_imports _ _ _ _ _ Hrun) in Hin. lia. }
    destruct (decide (j = i)) as [->|Hne].
    + assert (Hkeep : forall a, lst1 !! i = Some a -> lst' !! i = Some a).
      { intros a Ha. destruct (IH Hr i a Ha) as [[H _]|(a' & Hin & _)]; auto.
        apply (run_imports _ _ _ _ _ Hrun) in Hin. lia. }
      inversion Hstep; subst.
      * left. split; [apply Hkeep; congruence|].
        rewrite importCalls_app. simpl. exact Hlater.
      * right. exists item'. split.
        -- replace item with item0 by congruence. simpl. auto.
        -- apply Hkeep, list_lookup_insert_eq.
           eapply lookup_lt_Some; eassumption.
      * right. exists item'. split.
        -- replace item with item0 by congruence. simpl. auto.
        -- apply Hkeep, list_lookup_insert_eq.
           eapply lookup_lt_Some; eassumption.
    + rewrite <- (step_frame _ _ _ _ _ _ j Hstep Hne) in Hj.
      destruct (IH Hr j item Hj) as [[H Hno]|(a & Hin & H)].
      * left. split; [exact H|]. rewrite importCalls_app, in_app_iff.
        intros [Hin|Hin]; [|now apply Hno].
        apply importCalls_In in Hin as (b & a & Hin).
        apply (step_imports _ _ _ _ _ _ _ Hstep) in Hin. tauto.
      * right. exists a. split; [|exact H]. apply in_app_iff. now right.
  - discriminate.
Qed.

Lemma attempted_frame i lst w w1 t1 lst1 n :
  step i lst w (w1, t1, Val lst1) ->
  List.filter (attempted lst1) (seq (S i) n)
  = List.filter (attempted lst) (seq (S i) n).
Proof.
  intros Hstep. apply List.filter_ext_in. intros j Hj.
  apply List.in_seq in Hj. unfold attempted.
  now rewrite (step_frame _ _ _ _ _ _ j Hstep) by lia.
Qed.

(** With [continueOnError] the loop runs to its end: it imports exactly
    the records that are not skipped, in order, and logs every failure. *)
Lemma run_continue i n lst w o :
  k = true -> run i n lst w o ->
  (exists lst', o.2 = Val lst') /\
  importCalls o.1.2 = List.filter (attempted lst) (seq i n) /\
  forall j b a e, In (EvImport j b a) o.1.2 -> ImportError a = Some e ->
                  In (errorLine logger a e) o.1.2.
Proof.
  intros Hk.
  induction 1 as [|i n lst w w1 t1 lst1 w2 t2 r Hstep _ IH
                  |i n lst w w1 t1 e Hstep]; simpl in *.
  - split; [now eexists|]. split; [reflexivity|]. now intros.
  - destruct IH as (Hval & Hcalls & Hlog).
    split; [exact Hval|].
    rewrite importCalls_app, Hcalls, (attempted_frame _ _ _ _ _ _ _ Hstep).
    assert (Hlog' : forall j b a e,
      In (EvImport j b a) t1 -> ImportError a = Some e ->
      In (errorLine logger a e) t1).
    { inversion Hstep; subst; intros j b a e Hin Ha; in_cases Hin;
        injection Hin as <- <- <-; [congruence|].
      replace e with err by congruence. simpl. auto. }
    split.
    + unfold attempted at 2.
      inversion Hstep as [item Hi Hs|item ? item' Hi Hs|
                          |item ? item' err Hi Hs]; subst;
        rewrite Hi, Hs; reflexivity.
    + intros j b a e Hin Ha. apply in_app_iff.
      apply in_app_iff in Hin as [Hin|Hin]; eauto.
  - inversion Hstep; subst. discriminate.
Qed.

(** Without [continueOnError] a failed import is the last thing the loop
    does: it returns the error made from that record, and every import
    before it was of an earlier slot and succeeded. *)
Lemma run_abort i n lst w o :
  k = false -> run i n lst w o ->
  forall j b a e, In (EvImport j b a) o.1.2 -> ImportError a = Some e ->
  o.2 = Return (Fmt.Errorf (failureMsg a e)) /\
  exists tr0, o.1.2 = tr0 ++ [EvImport j b a] /\
    forall j' b' a', In (EvImport j' b' a') tr0 ->
                     j' < j /\ ImportError a' = None.
Proof.
  intros Hk.
  induction 1 as [|i n lst w w1 t1 lst1 w2 t2 r Hstep Hrun IH
                  |i n lst w w1 t1 e Hstep]; simpl in *;
    intros j b a e' Hin Ha.
  - destruct Hin.
  - assert (Ht1 : forall j' b' a', In (EvImport j' b' a') t1 ->
                    j' = i /\ ImportError a' = None).
    { inversion Hstep; subst; intros j' b' a' Hin'; in_cases Hin';
        try (injection Hin' as <- <- <-; auto); congruence. }
    apply in_app_iff in Hin as [Hin|Hin].
    + destruct (Ht1 _ _ _ Hin) as [_ Hnone]. congruence.
    + pose proof (run_imports _ _ _ _ _ Hrun _ _ _ Hin) as (Hj & _).
      destruct (IH _ _ _ _ Hin Ha) as (Hr & tr0 & -> & Hbefore).
      split; [exact Hr|].
      exists (t1 ++ tr0). split; [now rewrite app_assoc|].
      intros j' b' a' Hin'. apply in_app_iff in Hin' as [Hin'|Hin'].
      * destruct (Ht1 _ _ _ Hin') as [-> Hnone]. split; [lia|exact Hnone].
      * exact (Hbefore _ _ _ Hin').
  - inversion Hstep; subst. in_cases Hin.
    injection Hin as <- <- <-.
    replace e' with err by congruence.
    split; [reflexivity|].
    exists [EvLog logger (importingLine item)]. split; [reflexivity|].
    intros j' b' a' Hin'. in_cases Hin'.
Qed.

(** The loop returns early only without [continueOnError], and only
    right after an import that left an error. *)
Lemma run_return i n lst w o e :
  run i n lst w o -> o.2 = Return e ->
  k = false /\
  exists tr0 j b a cause,
    o.1.2 = tr0 ++ [EvImport j b a] /\ ImportError a = Some cause /\
    e = Fmt.Errorf (failureMsg a cause).
Proof.
  induction 1 as [|i n lst w w1 t1 lst1 w2 t2 r Hstep _ IH
                  |i n lst w w1 t1 e0 Hstep]; simpl in *; intros Hr.
  - discriminate.
  - destruct (IH Hr) as (Hk & tr0 & j & b & a & cause & -> & Ha & He).
    split; [exact Hk|].
    exists (t1 ++ tr0), j, b, a, cause. now rewrite app_assoc.
  - injection Hr as ->. inversion Hstep; subst.
    split; [reflexivity|].
    now exists [EvLog logger (importingLine item)], i, item, item', err.
Qed.

(** A skipped record gets its warning when the loop reaches it, that is
    unless the loop stopped at an earlier slot. *)
Lemma run_warning i n lst w o :
  run i n lst w o ->
  forall j item, i <= j < i + n -> lst !! j = Some item ->
  Skip item = true ->
  In (EvLog logger (warnLine item)) o.1.2 \/
  exists e tr0 j' b a,
    o.2 = Return e /\ o.1.2 = tr0 ++ [EvImport j' b a] /\ j' < j.
Proof.
  induction 1 as [|i n lst w w1 t1 lst1 w2 t2 r Hstep _ IH
                  |i n lst w w1 t1 e Hstep]; simpl in *;
    intros j item Hj Hitem Hskip.
  - lia.
  - destruct (decide (j = i)) as [->|Hne].
    + left. apply in_app_iff. left.
      inversion Hstep; subst; try congruence.
      replace item with item0 by congruence. simpl. auto.
    + rewrite <- (step_frame _ _ _ _ _ _ j Hstep Hne) in Hitem.
      destruct (IH j item ltac:(lia) Hitem Hskip)
        as [Hin|(e & tr0 & j' & b & a & Hr & -> & Hlt)].
      * left. apply in_app_iff. now right.
      * right. exists e, (t1 ++ tr0), j', b, a.
        now rewrite app_assoc.
  - destruct (decide (j = i)) as [->|Hne].
    + inversion Hstep; subst. congruence.
    + right. inversion Hstep; subst.
      exists (Fmt.Errorf (failureMsg item' err)),
        [EvLog logger (importingLine item0)], i, item0, item'.
      repeat split; auto; lia.
Qed.

End LoopFacts.

(* ===================================================================== *)
(** ** [batchImport] *)

Section BatchFacts.

Variable E : Env.

Lemma setup_events cfg w w0 pre logger :
  loggerSetup E cfg w w0 pre logger ->
  Forall (fun e => setupEvent e = true) pre.
Proof. inversion 1; subst; repeat constructor. Qed.

Lemma setup_In cfg w w0 pre logger e :
  loggerSetup E cfg w w0 pre logger -> In e pre -> setupEvent e = true.
Proof.
  intros H Hin. apply setup_events in H.
  rewrite List.Forall_forall in H. now apply H.
Qed.

Lemma batch_reached cfg k w w' tr res lst :
  batchImport E cfg k w = (w', tr, res) ->
  In (EvListResource lst) tr ->
  exists pre logger c w3 w4 ltr lres post,
    tr = pre ++ discovery logger cfg lst ++ ltr ++ post /\
    Forall (fun e => setupEvent e = true) pre /\
    loopRun E c k logger 0 (length lst) lst w3 (w4, ltr, lres) /\
    afterLoop E c logger w4 lres w' post res.
Proof.
  intros Heq Hin. pose proof (batchImport_run E cfg k w) as Hrun.
  rewrite Heq in Hrun.
  inversion Hrun as
    [ w1 err Hlog Hopen
    | w0 pre logger w1 err Hsetup Hnew
    | w0 pre logger w1 c w2 err Hsetup Hnew Hinit
    | w0 pre logger w1 c w2 w3 lst0 w4 ltr err Hsetup Hnew Hinit Hlist Hloop
    | w0 pre logger w1 c w2 w3 lst0 w4 ltr lst' w5 gerr
        Hsetup Hnew Hinit Hlist Hloop Hgen ]; subst.
  - in_cases Hin.
  - in_cases Hin. apply (setup_In _ _ _ _ _ _ Hsetup) in Hin. discriminate.
  - in_cases Hin. apply (setup_In _ _ _ _ _ _ Hsetup) in Hin. discriminate.
  - assert (lst = lst0) as <-.
    { in_cases Hin.
      - apply (setup_In _ _ _ _ _ _ Hsetup) in Hin. discriminate.
      - now injection Hin.
      - apply (loopEvents_In _ _ (run_events _ _ _ _ _ _ _ _ _ Hloop))
          in Hin. discriminate. }
    exists pre, logger, c, w3, w', ltr, (Return err), [].
    rewrite app_nil_r. repeat split; eauto using setup_events.
    constructor.
  - assert (lst = lst0) as <-.
    { in_cases Hin.
      - apply (setup_In _ _ _ _ _ _ Hsetup) in Hin. discriminate.
      - now injection Hin.
      - apply (loopEvents_In _ _ (run_events _ _ _ _ _ _ _ _ _ Hloop))
          in Hin. discriminate. }
    exists pre, logger, c, w3, w4, ltr, (Val lst'),
      [EvLog logger ("Generate Terraform configurations" +:+ nl);
       EvGenerateCfg lst' gerr].
    repeat split; eauto using setup_events.
    now constructor.
Qed.

Lemma setup_importCalls pre :
  Forall (fun e => setupEvent e = true) pre -> importCalls pre = [].
Proof.
  induction 1 as [|e pre He _ IH]; simpl; [reflexivity|].
  destruct e; try discriminate; exact IH.
Qed.

Lemma setup_generateCalls pre :
  Forall (fun e => setupEvent e = true) pre -> generateCalls pre = [].
Proof.
  induction 1 as [|e pre He _ IH]; simpl; [reflexivity|].
  destruct e; try discriminate; exact IH.
Qed.

Lemma setup_phases pre :
  Forall (fun e => setupEvent e = true) pre -> phases pre = [].
Proof.
  induction 1 as [|e pre He _ IH]; simpl; [reflexivity|].
  destruct e; try discriminate; exact IH.
Qed.

Lemma afterLoop_events c logger w4 lres w' post res e :
  afterLoop E c logger w4 lres w' post res -> In e post ->
  setupEvent e = false /\ forall j b a, e <> EvImport j b a.
Proof.
  inversion 1; subst; intros Hin; in_cases Hin; subst; now split.
Qed.

(** The [Import] calls of a run are those of its loop. *)
Lemma reached_imports pre logger cfg lst ltr c w4 lres w' post res j b a :
  Forall (fun e => setupEvent e = true) pre ->
  afterLoop E c logger w4 lres w' post res ->
  In (EvImport j b a) (pre ++ discovery logger cfg lst ++ ltr ++ post) <->
  In (EvImport j b a) ltr.
Proof.
  intros Hpre Hpost. split.
  - intros Hin. in_cases Hin; auto.
    + rewrite List.Forall_forall in Hpre. apply Hpre in Hin. discriminate.
    + apply (afterLoop_events _ _ _ _ _ _ _ _ Hpost) in Hin
        as (_ & Hne). now destruct (Hne j b a).
  - intros Hin. apply in_app_iff. right. apply in_app_iff. right.
    apply in_app_iff. now left.
Qed.

Lemma reached_importCalls pre logger cfg lst ltr c w4 lres w' post res :
  Forall (fun e => setupEvent e = true) pre ->
  afterLoop E c logger w4 lres w' post res ->
  importCalls (pre ++ discovery logger cfg lst ++ ltr ++ post)
  = importCalls ltr.
Proof.
  intros Hpre Hpost.
  rewrite !importCalls_app, (setup_importCalls _ Hpre). simpl.
  inversion Hpost; subst; simpl; now rewrite app_nil_r.
Qed.

Lemma reached_generateCalls pre logger cfg lst ltr post :
  Forall (fun e => setupEvent e = true) pre ->
  Forall (fun e => loopEvent e = true) ltr ->
  generateCalls (pre ++ discovery logger cfg lst ++ ltr ++ post)
  = generateCalls post.
Proof.
  intros Hpre Hloop.
  rewrite !generateCalls_app, (setup_generateCalls _ Hpre),
    (loopEvents_generateCalls _ Hloop). reflexivity.
Qed.

Lemma reached_generate pre logger cfg lst ltr c w4 lres w' post res l g :
  Forall (fun e => setupEvent e = true) pre ->
  Forall (fun e => loopEvent e = true) ltr ->
  afterLoop E c logger w4 lres w' post res ->
  In (EvGenerateCfg l g) (pre ++ discovery logger cfg lst ++ ltr ++ post) ->
  lres = Val l /\
  post = [EvLog logger ("Generate Terraform configurations" +:+ nl);
          EvGenerateCfg l g] /\
  res = match g with
        | Some err => Return ("generating Terraform configuration: " +:+ err)
        | None => Val tt
        end.
Proof.
  intros Hpre Hloop Hpost Hin. in_cases Hin.
  - rewrite List.Forall_forall in Hpre. apply Hpre in Hin. discriminate.
  - apply (loopEvents_In _ _ Hloop) in Hin. discriminate.
  - inversion Hpost; subst; in_cases Hin. now injection Hin as <- <-.
Qed.

Lemma reached_phases pre logger cfg lst ltr post :
  Forall (fun e => setupEvent e = true) pre ->
  Forall (fun e => loopEvent e = true) ltr ->
  phases (pre ++ discovery logger cfg lst ++ ltr ++ post)
  = [PNewMeta; PInit; PListResource]
    ++ repeat PImport (length (importCalls ltr)) ++ phases post.
Proof.
  intros Hpre Hloop.
  rewrite !phases_app, (setup_phases _ Hpre), (loopEvents_phases _ Hloop).
  reflexivity.
Qed.

Lemma reached_In_loop pre logger cfg lst ltr post e :
  In e ltr -> In e (pre ++ discovery logger cfg lst ++ ltr ++ post).
Proof. intros H. rewrite !in_app_iff. auto. Qed.

Lemma reached_In_post pre logger cfg lst ltr post e :
  In e post -> In e (pre ++ discovery logger cfg lst ++ ltr ++ post).
Proof. intros H. rewrite !in_app_iff. auto. Qed.

(** [Import] and [GenerateCfg] are called only after discovery. *)
Lemma engine_work_after_discovery cfg k w w' tr res e :
  batchImport E cfg k w = (w', tr, res) ->
  In e tr ->
  (exists j b a, e = EvImport j b a) \/ (exists l g, e = EvGenerateCfg l g) ->
  exists lst, In (EvListResource lst) tr.
Proof.
  intros Heq Hin He. pose proof (batchImport_run E cfg k w) as Hrun.
  rewrite Heq in Hrun.
  assert (Hpre : forall cfg w w0 pre logger,
            loggerSetup E cfg w w0 pre logger -> ~ In e pre).
  { intros ? ? ? ? ? Hsetup Hin'.
    apply (setup_In _ _ _ _ _ _ Hsetup) in Hin'.
    destruct He as [(j & b & a & ->)|(l & g & ->)]; discriminate. }
  inversion Hrun as
    [ w1 err Hlog Hopen
    | w0 pre logger w1 err Hsetup Hnew
    | w0 pre logger w1 c w2 err Hsetup Hnew Hinit
    | w0 pre logger w1 c w2 w3 lst0 w4 ltr err Hsetup Hnew Hinit Hlist Hloop
    | w0 pre logger w1 c w2 w3 lst0 w4 ltr lst' w5 gerr
        Hsetup Hnew Hinit Hlist Hloop Hgen ]; subst.
  - exfalso. in_cases Hin; subst;
      destruct He as [(? & ? & ? & ?)|(? & ? & ?)]; discriminate.
  - exfalso. in_cases Hin; subst;
      try (destruct He as [(? & ? & ? & ?)|(? & ? & ?)]; discriminate).
    exact (Hpre _ _ _ _ _ Hsetup Hin).
  - exfalso. in_cases Hin; subst;
      try (destruct He as [(? & ? & ? & ?)|(? & ? & ?)]; discriminate).
    exact (Hpre _ _ _ _ _ Hsetup Hin).
  - exists lst0. apply in_app_iff. right. simpl. auto 10.
  - exists lst0. apply in_app_iff. right. simpl. auto 10.
Qed.

(** Without [continueOnError], an import that leaves an error ends the
    run: it is the last event, the error returned is made from that
    record, no later record is imported, nothing is generated, and every
    import before it was of an earlier slot and succeeded. *)
Lemma batchImport_abort cfg w w' tr res j b a cause :
  batchImport E cfg false w = (w', tr, res) ->
  In (EvImport j b a) tr -> ImportError a = Some cause ->
  res = Return (Fmt.Errorf (failureMsg a cause)) /\
  generateCalls tr = [] /\
  exists tr0, tr = tr0 ++ [EvImport j b a] /\
    forall j' b' a', In (EvImport j' b' a') tr0 ->
                     j' < j /\ ImportError a' = None.
Proof.
  intros Heq Hin Ha.
  destruct (engine_work_after_discovery _ _ _ _ _ _ _ Heq Hin
              ltac:(left; eauto)) as [lst Hlst].
  destruct (batch_reached _ _ _ _ _ _ _ Heq Hlst)
    as (pre & logger & c & w3 & w4 & ltr & lres & post
        & -> & Hpre & Hloop & Hpost).
  pose proof (run_events _ _ _ _ _ _ _ _ _ Hloop) as Hev. simpl in Hev.
  apply (reached_imports pre logger cfg lst ltr _ _ _ _ post _ _ _ _
           Hpre Hpost) in Hin.
  destruct (run_abort _ _ _ _ _ _ _ _ _ eq_refl Hloop _ _ _ _ Hin Ha)
    as (Hres & tr0 & Htr & Hbefore). simpl in Hres, Htr.
  subst lres ltr. inversion Hpost; subst.
  split; [reflexivity|]. split.
  - rewrite (reached_generateCalls pre logger cfg lst _ [] Hpre Hev).
    reflexivity.
  - exists (pre ++ discovery logger cfg lst ++ tr0). split.
    + now rewrite app_nil_r, <- !app_assoc.
    + intros j' b' a' Hin'. in_cases Hin'; eauto.
      rewrite List.Forall_forall in Hpre. apply Hpre in Hin'. discriminate.
Qed.

(** When the message holds no percent sign the error returned is the
    message itself. *)
Lemma batchImport_abort_plain cfg w w' tr res j b a cause :
  batchImport E cfg false w = (w', tr, res) ->
  In (EvImport j b a) tr -> ImportError a = Some cause ->
  Fmt.hasPercent (failureMsg a cause) = false ->
  res = Return (failureMsg a cause).
Proof.
  intros Heq Hin Ha Hplain.
  destruct (batchImport_abort _ _ _ _ _ _ _ _ _ Heq Hin Ha) as [-> _].
  now rewrite FmtFacts.Errorf_plain.
Qed.

End BatchFacts.

(* ===================================================================== *)
(** ** The orchestration properties *)

(** C2.  With [continueOnError = true], in every run that reaches
    discovery: the import calls are exactly the slots of the records
    that are not skipped, in discovery order; every import that leaves
    an error is followed by its ["[ERROR] ..."] log line and the loop
    goes on; and [GenerateCfg] is called exactly once, with a slice as
    long as the discovered one whose slot [j] holds the discovered record
    itself when it is skipped and the record its import left otherwise,
    failed or not.  The value returned depends on [GenerateCfg] alone. *)
Theorem continue_attempts_all_then_generates_once
  (E : Env) cfg w w' tr res lst :
  batchImport E cfg true w = (w', tr, res) ->
  In (EvListResource lst) tr ->
  importCalls tr = List.filter (attempted lst) (seq 0 (length lst)) /\
  (forall j b a cause,
      In (EvImport j b a) tr -> ImportError a = Some cause ->
      exists logger, In (errorLine logger a cause) tr) /\
  exists lst' gerr,
    generateCalls tr = [lst'] /\
    In (EvGenerateCfg lst' gerr) tr /\
    length lst' = length lst /\
    (forall j item, lst !! j = Some item ->
       if Skip item then lst' !! j = Some item
       else exists a, In (EvImport j item a) tr /\ lst' !! j = Some a) /\
    res = match gerr with
          | Some err => Return ("generating Terraform configuration: " +:+ err)
          | None => Val tt
          end.
Proof.
  intros Heq Hlst.
  destruct (batch_reached _ _ _ _ _ _ _ _ Heq Hlst)
    as (pre & logger & c & w3 & w4 & ltr & lres & post
        & -> & Hpre & Hloop & Hpost).
  pose proof (run_events _ _ _ _ _ _ _ _ _ Hloop) as Hev. simpl in Hev.
  destruct (run_continue _ _ _ _ _ _ _ _ _ eq_refl Hloop)
    as ((lst' & Hval) & Hcalls & Hlogged). simpl in Hval, Hcalls, Hlogged.
  subst lres.
  pose proof (run_length _ _ _ _ _ _ _ _ _ lst' Hloop eq_refl) as Hlen.
  pose proof (run_final _ _ _ _ _ _ _ _ _ lst' Hloop eq_refl) as Hfinal.
  simpl in Hfinal.
  assert (Himp : forall j b a, In (EvImport j b a)
                   (pre ++ discovery logger cfg lst ++ ltr ++ post)
                 <-> In (EvImport j b a) ltr).
  { intros. eapply reached_imports; eassumption. }
  split; [|split].
  - rewrite (reached_importCalls _ pre logger cfg lst ltr _ _ _ _ post _
               Hpre Hpost). exact Hcalls.
  - intros j b a cause Hin Ha. apply Himp in Hin.
    exists logger. apply reached_In_loop. eauto.
  - inversion Hpost as [|? w5 gerr Hgen]; subst.
    exists lst', gerr. repeat split.
    + rewrite (reached_generateCalls pre logger cfg lst ltr _ Hpre Hev).
      reflexivity.
    + apply reached_In_post. simpl. auto.
    + exact Hlen.
    + intros j item Hj.
      destruct (Hfinal j item Hj) as [[Hsame Hno]|(a & Hin & Ha)].
      * destruct (Skip item) eqn:Hskip; [exact Hsame|].
        exfalso. apply Hno. rewrite Hcalls.
        apply List.filter_In. split.
        -- apply List.in_seq. apply lookup_lt_Some in Hj. lia.
        -- unfold attempted. now rewrite Hj, Hskip.
      * destruct (run_imports _ _ _ _ _ _ _ _ _ Hloop _ _ _ Hin)
          as (_ & _ & ->).
        exists a. split; [now apply Himp|exact Ha].
Qed.

Lemma continue_attempts_all_then_generates_once_witness :
  let o := batchImport Demo.env Demo.cfg true (Demo.scriptU "boom") in
  importCalls o.1.2 = [0; 2; 3] /\
  generateCalls o.1.2
  = [[Demo.A; Demo.U;
      mkItem "/rg/B" true "azurerm_b.res-1" (Some "boom"); Demo.C]] /\
  o.2 = Val tt.
Proof.
  intro o.
  destruct (continue_attempts_all_then_generates_once Demo.env Demo.cfg
              (Demo.scriptU "boom") o.1.1 o.1.2 o.2
              [Demo.A; Demo.U; Demo.B; Demo.C] eq_refl)
    as (Hcalls & _ & lst' & gerr & Hgen & _).
  - vm_compute. tauto.
  - split; [exact Hcalls|]. split; reflexivity.
Defined.

(** C3, amended.  In every run that reaches discovery, a record with
    [Skip() = true] is never handed to [Import]; the slice given to
    [GenerateCfg] holds it as discovery returned it, so its
    [ImportError] was not set; and the warning naming its resource ID is
    logged when the loop reaches it, that is unless the run ended at the
    import of an earlier record. *)
Theorem skipped_record_is_never_imported
  (E : Env) cfg k w w' tr res lst j item :
  batchImport E cfg k w = (w', tr, res) ->
  In (EvListResource lst) tr ->
  lst !! j = Some item -> Skip item = true ->
  ~ In j (importCalls tr) /\
  (forall lst' gerr, In (EvGenerateCfg lst' gerr) tr ->
                     lst' !! j = Some item) /\
  ((exists logger,
      In (EvLog logger
            ("[WARN] No mapping information for resource: "
             +:+ ResourceID item +:+ ", skip it" +:+ nl)) tr) \/
   (exists err tr0 j' b a,
      res = Return err /\ tr = tr0 ++ [EvImport j' b a] /\ j' < j)).
Proof.
  intros Heq Hlst Hj Hskip.
  destruct (batch_reached _ _ _ _ _ _ _ _ Heq Hlst)
    as (pre & logger & c & w3 & w4 & ltr & lres & post
        & -> & Hpre & Hloop & Hpost).
  pose proof (run_events _ _ _ _ _ _ _ _ _ Hloop) as Hev. simpl in Hev.
  assert (Hnever : ~ In j (importCalls ltr)).
  { intros Hin. apply importCalls_In in Hin as (b & a & Hin).
    destruct (run_imports _ _ _ _ _ _ _ _ _ Hloop _ _ _ Hin)
      as (_ & Hb & Hs). congruence. }
  split; [|split].
  - now rewrite (reached_importCalls _ pre logger cfg lst ltr _ _ _ _ post _
                   Hpre Hpost).
  - intros lst' gerr Hin.
    destruct (reached_generate _ _ _ _ _ _ _ _ _ _ _ _ _ _ Hpre Hev Hpost Hin)
      as (-> & _ & _).
    destruct (run_final _ _ _ _ _ _ _ _ _ lst' Hloop eq_refl j item Hj)
      as [[Hsame _]|(a & Hin' & _)]; [exact Hsame|].
    exfalso. apply Hnever. apply importCalls_In. eauto.
  - apply lookup_lt_Some in Hj as Hlt.
    destruct (run_warning _ _ _ _ _ _ _ _ _ Hloop j item ltac:(lia) Hj Hskip)
      as [Hin|(err & tr0 & j' & b & a & Hr & Htr & Hlt')];
      simpl in Hin || simpl in Hr, Htr.
    + left. exists logger. now apply reached_In_loop.
    + right. subst lres ltr. inversion Hpost; subst.
      exists err, (pre ++ discovery logger cfg lst ++ tr0), j', b, a.
      repeat split; auto. now rewrite app_nil_r, <- !app_assoc.
Qed.

Lemma skipped_record_is_never_imported_witness :
  let o := batchImport Demo.env Demo.cfg false (Demo.scriptU "boom") in
  ~ In 1 (importCalls o.1.2) /\
  (exists logger,
     In (EvLog logger
           ("[WARN] No mapping information for resource: /rg/U, skip it"
            +:+ nl)) o.1.2).
Proof.
  intro o.
  destruct (skipped_record_is_never_imported Demo.env Demo.cfg false
              (Demo.scriptU "boom") o.1.1 o.1.2 o.2
              [Demo.A; Demo.U; Demo.B; Demo.C] 1 Demo.U eq_refl)
    as (Hnever & _ & [Hwarn|Hstop]).
  - vm_compute. tauto.
  - reflexivity.
  - reflexivity.
  - split; assumption.
  - exfalso. destruct Hstop as (err & tr0 & j' & b & a & _ & Htr & Hlt).
    assert (j' = 2); [|lia].
    assert (Hlast : last o.1.2 = Some (EvImport j' b a)).
    { rewrite Htr. apply last_snoc. }
    vm_compute in Hlast. now injection Hlast.
Defined.

(** C3, as stated, fails: records [B; U] with [U] unmapped, the import
    of [B] fails and [continueOnError] is off.  The run ends at [B]; [U]
    is never reached and no warning is logged for it. *)
Lemma no_warning_for_a_record_after_the_abort :
  let o := batchImport Demo.env Demo.cfg false
             (Demo.mkScript [Demo.B; Demo.U] [("/rg/B", "boom")]
                None None None None 0) in
  In (EvListResource [Demo.B; Demo.U]) o.1.2 /\
  [Demo.B; Demo.U] !! 1 = Some Demo.U /\ Skip Demo.U = true /\
  ~ exists logger,
      In (EvLog logger
            ("[WARN] No mapping information for resource: "
             +:+ ResourceID Demo.U +:+ ", skip it" +:+ nl)) o.1.2.
Proof.
  intro o. split; [vm_compute; tauto|].
  split; [reflexivity|]. split; [reflexivity|].
  intros [logger Hin]. vm_compute in Hin.
  repeat (destruct Hin as [Hin|Hin]; [discriminate Hin|]).
  exact Hin.
Qed.

(** C4.  The slice handed to [GenerateCfg] is the discovered one: the
    same length, and slot by slot either the record discovery returned
    or the record that the import of that very slot left there; nothing
    else writes to it.  So, when the engine's [Import] changes nothing of
    a record but its [ImportError], the two slices hold the same records
    in the same order. *)
Theorem generation_receives_the_discovered_sequence
  (E : Env) cfg k w w' tr res lst lst' gerr :
  batchImport E cfg k w = (w', tr, res) ->
  In (EvListResource lst) tr ->
  In (EvGenerateCfg lst' gerr) tr ->
  length lst' = length lst /\
  (forall j item, lst !! j = Some item ->
     lst' !! j = Some item \/
     exists a, In (EvImport j item a) tr /\ lst' !! j = Some a) /\
  ((forall w0 c item, sameRecord (Import E w0 c item).2 item) ->
   Forall2 sameRecord lst' lst).
Proof.
  intros Heq Hlst Hgen.
  destruct (batch_reached _ _ _ _ _ _ _ _ Heq Hlst)
    as (pre & logger & c & w3 & w4 & ltr & lres & post
        & -> & Hpre & Hloop & Hpost).
  pose proof (run_events _ _ _ _ _ _ _ _ _ Hloop) as Hev. simpl in Hev.
  destruct (reached_generate _ _ _ _ _ _ _ _ _ _ _ _ _ _ Hpre Hev Hpost Hgen)
    as (-> & _ & _).
  pose proof (run_length _ _ _ _ _ _ _ _ _ lst' Hloop eq_refl) as Hlen.
  pose proof (run_final _ _ _ _ _ _ _ _ _ lst' Hloop eq_refl) as Hfinal.
  simpl in Hfinal.
  split; [exact Hlen|]. split.
  - intros j item Hj.
    destruct (Hfinal j item Hj) as [[Hsame _]|(a & Hin & Ha)];
      [now left|right].
    exists a. split; [now apply reached_In_loop|exact Ha].
  - intros Hframe. apply Forall2_same_length_lookup. split; [exact Hlen|].
    intros j x y Hx Hy.
    destruct (Hfinal j y Hy) as [[Hsame _]|(a & Hin & Ha)].
    + replace x with y by congruence. now repeat split.
    + assert (Hstep : exists w0, a = (Import E w0 c y).2).
      { clear - Hloop Hin. remember (w4, ltr, Val lst') as o eqn:Ho.
        replace ltr with o.1.2 in Hin by now subst o.
        clear Ho. induction Hloop
          as [|i n lst w w1 t1 lst1 w2 t2 r Hstep _ IH
              |i n lst w w1 t1 e Hstep]; simpl in Hin.
        - destruct Hin.
        - apply in_app_iff in Hin as [Hin|Hin]; [|auto].
          inversion Hstep as [| ? ? ? ? ? Himp| |? ? ? ? ? ? Himp]; subst;
            in_cases Hin; injection Hin as <- <- <-;
            exists w; now rewrite Himp.
        - inversion Hstep as [| |? ? ? ? ? ? Himp|]; subst.
          in_cases Hin. injection Hin as <- <- <-.
          exists w. now rewrite Himp. }
      destruct Hstep as [w0 ->].
      replace x with (Import E w0 c y).2 by congruence. apply Hframe.
Qed.

Lemma generation_receives_the_discovered_sequence_witness :
  let o := batchImport Demo.env Demo.cfg true (Demo.scriptU "boom") in
  Forall2 sameRecord
    [Demo.A; Demo.U; mkItem "/rg/B" true "azurerm_b.res-1" (Some "boom");
     Demo.C]
    [Demo.A; Demo.U; Demo.B; Demo.C].
Proof.
  intro o.
  apply (generation_receives_the_discovered_sequence Demo.env Demo.cfg true
           (Demo.scriptU "boom") o.1.1 o.1.2 o.2
           [Demo.A; Demo.U; Demo.B; Demo.C] _ None eq_refl).
  - vm_compute. tauto.
  - vm_compute. tauto.
  - intros w0 c item. now repeat split.
Defined.

(** C6.  When [GenerateCfg] returns an error, the run returns the text
    ["generating Terraform configuration: "] followed by the text of that
    error: the phase is named, the cause is kept, and the run fails. *)
Theorem generation_error_is_wrapped_and_returned
  (E : Env) cfg k w w' tr res lst' cause :
  batchImport E cfg k w = (w', tr, res) ->
  In (EvGenerateCfg lst' (Some cause)) tr ->
  res = Return ("generating Terraform configuration: " +:+ cause).
Proof.
  intros Heq Hgen.
  destruct (engine_work_after_discovery _ _ _ _ _ _ _ _ Heq Hgen
              ltac:(right; eauto)) as [lst Hlst].
  destruct (batch_reached _ _ _ _ _ _ _ _ Heq Hlst)
    as (pre & logger & c & w3 & w4 & ltr & lres & post
        & -> & Hpre & Hloop & Hpost).
  pose proof (run_events _ _ _ _ _ _ _ _ _ Hloop) as Hev. simpl in Hev.
  now destruct (reached_generate _ _ _ _ _ _ _ _ _ _ _ _ _ _
                  Hpre Hev Hpost Hgen) as (_ & _ & ->).
Qed.

Lemma generation_error_is_wrapped_and_returned_witness :
  (batchImport Demo.env Demo.cfg true
     (Demo.mkScript [Demo.A] [] None None None (Some "disk full") 0)).2
  = Return "generating Terraform configuration: disk full".
Proof.
  apply (generation_error_is_wrapped_and_returned Demo.env Demo.cfg true
           (Demo.mkScript [Demo.A] [] None None None (Some "disk full") 0)
           _ _ _ [Demo.A] "disk full" eq_refl).
  vm_compute. tauto.
Defined.

(** C8.  The error of an aborted run is a function of the failing record:
    two runs without [continueOnError], whatever their worlds and
    configurations, in which an import leaves records with the same
    resource ID, the same target address and the same error, return the
    same error. *)
Theorem abort_error_is_deterministic
  (E1 E2 : Env) cfg1 cfg2 w1 w2 w1' w2' tr1 tr2 res1 res2
  j1 j2 b1 b2 a1 a2 cause :
  batchImport E1 cfg1 false w1 = (w1', tr1, res1) ->
  batchImport E2 cfg2 false w2 = (w2', tr2, res2) ->
  In (EvImport j1 b1 a1) tr1 -> In (EvImport j2 b2 a2) tr2 ->
  ImportError a1 = Some cause -> ImportError a2 = Some cause ->
  ResourceID a1 = ResourceID a2 -> TFAddr a1 = TFAddr a2 ->
  res1 = res2 /\
  res1 = Return (Fmt.Errorf
                   ("Failed to import " +:+ ResourceID a1 +:+ " as "
                    +:+ TFAddr a1 +:+ ": " +:+ cause)).
Proof.
  intros Heq1 Heq2 Hin1 Hin2 Ha1 Ha2 Hid Haddr.
  destruct (batchImport_abort _ _ _ _ _ _ _ _ _ _ Heq1 Hin1 Ha1) as [-> _].
  destruct (batchImport_abort _ _ _ _ _ _ _ _ _ _ Heq2 Hin2 Ha2) as [-> _].
  unfold failureMsg. rewrite Hid, Haddr. split; reflexivity.
Qed.

Lemma abort_error_is_deterministic_witness :
  (batchImport Demo.env Demo.cfg false (Demo.script "boom")).2
  = (batchImport Demo.env Demo.cfgLog false (Demo.scriptU "boom")).2.
Proof.
  apply (abort_error_is_deterministic Demo.env Demo.env Demo.cfg Demo.cfgLog
           (Demo.script "boom") (Demo.scriptU "boom") _ _ _ _ _ _
           1 2 Demo.B Demo.B
           (mkItem "/rg/B" true "azurerm_b.res-1" (Some "boom"))
           (mkItem "/rg/B" true "azurerm_b.res-1" (Some "boom"))
           "boom" eq_refl eq_refl).
  - vm_compute. tauto.
  - vm_compute. tauto.
  - reflexivity.
  - reflexivity.
  - reflexivity.
  - reflexivity.
Defined.

(** C10.  When the configuration names a log file and opening it fails,
    [batchImport] returns the error of [os.OpenFile] at once: the trace
    holds the redirection of the global logger and the failed open,
    and no engine call. *)
Theorem logfile_open_failure_returns_before_engine
  (E : Env) cfg k w w1 err :
  Logfile cfg <> "" ->
  OpenFile E w (Logfile cfg) [O_WRONLY; O_CREATE; O_APPEND] 420%N
  = (w1, Some err) ->
  batchImport E cfg k w
  = (w1,
     [EvLogDiscard;
      EvOpenFile (Logfile cfg) [O_WRONLY; O_CREATE; O_APPEND] 420%N
        (Some err)],
     Return err) /\
  phases (batchImport E cfg k w).1.2 = [].
Proof.
  intros Hlog Hopen.
  assert (Heq : batchImport E cfg k w
    = (w1,
       [EvLogDiscard;
        EvOpenFile (Logfile cfg) [O_WRONLY; O_CREATE; O_APPEND] 420%N
          (Some err)],
       Return err)).
  { unfold batchImport, bind, call, emit, returnWith. simpl.
    destruct (String.eqb_spec (Logfile cfg) "") as [Heq|_]; [contradiction|].
    simpl. now rewrite Hopen. }
  split; [exact Heq|]. now rewrite Heq.
Qed.

Lemma logfile_open_failure_returns_before_engine_witness :
  (batchImport Demo.env Demo.cfgLog true
     (Demo.mkScript [Demo.A] [] (Some "permission denied") None None None 0)).2
  = Return "permission denied".
Proof.
  destruct (logfile_open_failure_returns_before_engine Demo.env Demo.cfgLog
              true
              (Demo.mkScript [Demo.A] [] (Some "permission denied")
                 None None None 0)
              _ "permission denied" ltac:(discriminate) eq_refl)
    as [Heq _].
  now rewrite Heq.
Defined.

(** The engine operations of a run are an initial part of
    [NewMeta, Init, ListResource, Import ... Import, GenerateCfg]; a
    failing [NewMeta] or [Init] is returned at once; and after
    discovery [GenerateCfg] is called exactly when the loop did not
    abort. *)
Lemma phase_order (E : Env) cfg k w :
  let tr := (batchImport E cfg k w).1.2 in
  let res := (batchImport E cfg k w).2 in
  (exists n,
     phases tr `prefix_of`
       [PNewMeta; PInit; PListResource] ++ repeat PImport n
       ++ [PGenerateCfg]) /\
  (forall err, In (EvNewMeta cfg (Some err)) tr ->
               phases tr = [PNewMeta] /\ res = Return err) /\
  (forall err, In (EvInit (Some err)) tr ->
               phases tr = [PNewMeta; PInit] /\ res = Return err) /\
  (forall lst, In (EvListResource lst) tr ->
     ((exists lst' gerr, In (EvGenerateCfg lst' gerr) tr) <->
      (k = true \/
       forall j b a, In (EvImport j b a) tr -> ImportError a = None))).
Proof.
  destruct (batchImport E cfg k w) as [[w' tr] res] eqn:Heq. simpl.
  pose proof (batchImport_run E cfg k w) as Hrun. rewrite Heq in Hrun.
  assert (Hdisc : forall lst,
    In (EvListResource lst) tr ->
    ((exists lst' gerr, In (EvGenerateCfg lst' gerr) tr) <->
     (k = true \/
      forall j b a, In (EvImport j b a) tr -> ImportError a = None))).
  { intros lst Hlst.
    destruct (batch_reached _ _ _ _ _ _ _ _ Heq Hlst)
      as (pre & logger & c & w3 & w4 & ltr & lres & post
          & -> & Hpre & Hloop & Hpost).
    pose proof (run_events _ _ _ _ _ _ _ _ _ Hloop) as Hev. simpl in Hev.
    assert (Himp : forall j b a, In (EvImport j b a)
                     (pre ++ discovery logger cfg lst ++ ltr ++ post)
                   <-> In (EvImport j b a) ltr).
    { intros. eapply reached_imports; eassumption. }
    split.
    - intros (lst' & gerr & Hgen).
      destruct (reached_generate _ _ _ _ _ _ _ _ _ _ _ _ _ _
                  Hpre Hev Hpost Hgen) as (-> & _ & _).
      destruct k; [now left|right].
      intros j b a Hin. apply Himp in Hin.
      destruct (ImportError a) as [cause|] eqn:Ha; [|reflexivity].
      destruct (run_abort _ _ _ _ _ _ _ _ _ eq_refl Hloop _ _ _ _ Hin Ha)
        as [Hr _]. discriminate.
    - intros Hok.
      assert (Hval : exists lst', lres = Val lst').
      { destruct lres as [lst'|err|]; [now eexists| |].
        - exfalso.
          destruct (run_return _ _ _ _ _ _ _ _ _ err Hloop eq_refl)
            as (Hk & tr0 & j & b & a & cause & Htr & Ha & _).
          simpl in Htr. destruct Hok as [Hk'|Hok]; [congruence|].
          assert (Hin : In (EvImport j b a) ltr).
          { rewrite Htr. apply in_app_iff. right. now left. }
          apply Himp in Hin. apply Hok in Hin. congruence.
        - exfalso. exact (loopRun_no_panic _ _ _ _ _ _ _ _ _ _ Hloop). }
      destruct Hval as [lst' ->].
      inversion Hpost as [|? w5 gerr Hgen]; subst.
      exists lst', gerr. apply reached_In_post. simpl. auto. }
  inversion Hrun as
    [ w1 err Hlog Hopen
    | w0 pre logger w1 err Hsetup Hnew
    | w0 pre logger w1 c w2 err Hsetup Hnew Hinit
    | w0 pre logger w1 c w2 w3 lst0 w4 ltr err Hsetup Hnew Hinit Hlist Hloop
    | w0 pre logger w1 c w2 w3 lst0 w4 ltr lst' w5 gerr
        Hsetup Hnew Hinit Hlist Hloop Hgen ]; subst;
    try (pose proof (setup_events _ _ _ _ _ _ Hsetup) as Hpre);
    try (pose proof (run_events _ _ _ _ _ _ _ _ _ Hloop) as Hev;
         simpl in Hev).
  - split; [exists 0; simpl; now eexists|].
    split; [|split]; [| |exact Hdisc]; intros e Hin; in_cases Hin.
  - assert (Hph : phases (pre ++ [EvLog logger ("New meta" +:+ nl);
                                 EvNewMeta cfg (Some err)]) = [PNewMeta]).
    { now rewrite phases_app, (setup_phases _ Hpre). }
    rewrite Hph.
    split; [exists 0; simpl; now eexists|].
    split; [|split]; [| |exact Hdisc]; intros e Hin; in_cases Hin;
      try (apply (setup_In _ _ _ _ _ _ _ Hsetup) in Hin; discriminate).
    now injection Hin as <-.
  - assert (Hph : phases (pre ++ [EvLog logger ("New meta" +:+ nl);
                                 EvNewMeta cfg None;
                                 EvLog logger ("Initialize" +:+ nl);
                                 EvInit (Some err)]) = [PNewMeta; PInit]).
    { now rewrite phases_app, (setup_phases _ Hpre). }
    rewrite Hph.
    split; [exists 0; simpl; now eexists|].
    split; [|split]; [| |exact Hdisc]; intros e Hin; in_cases Hin;
      try (apply (setup_In _ _ _ _ _ _ _ Hsetup) in Hin; discriminate).
    now injection Hin as <-.
  - rewrite phases_app, (setup_phases _ Hpre). simpl.
    rewrite (loopEvents_phases _ Hev).
    split; [exists (length (importCalls ltr)); now eexists|].
    split; [|split]; [| |exact Hdisc]; intros e Hin; in_cases Hin;
      try (apply (setup_In _ _ _ _ _ _ _ Hsetup) in Hin; discriminate);
      apply (loopEvents_In _ _ Hev) in Hin; discriminate.
  - rewrite phases_app, (setup_phases _ Hpre). simpl.
    rewrite phases_app, (loopEvents_phases _ Hev). simpl.
    split; [exists (length (importCalls ltr)); exists []; simpl;
            now rewrite app_nil_r|].
    split; [|split]; [| |exact Hdisc]; intros e Hin; in_cases Hin;
      try (apply (setup_In _ _ _ _ _ _ _ Hsetup) in Hin; discriminate);
      apply (loopEvents_In _ _ Hev) in Hin; discriminate.
Qed.

(* ===================================================================== *)
(** ** The command line *)

(** C9.  With [-v] the process prints the version on the standard output
    and exits with status 0, whatever the positional arguments and the
    other flags are: nothing is checked and nothing else is called. *)
Theorem version_flag_exits_before_any_check (E : Env) fl w :
  flagVersion fl = true ->
  main E fl w = (w, [EvStdout (version E +:+ nl)], Return 0%N) /\
  exitCode (main E fl w).2 = Some 0%N.
Proof.
  intros Hv.
  assert (Heq : main E fl w
                = (w, [EvStdout (version E +:+ nl)], Return 0%N)).
  { unfold main, when, bind, emit, Exit, returnWith. now rewrite Hv. }
  split; [exact Heq|]. now rewrite Heq.
Qed.

Lemma version_flag_exits_before_any_check_witness :
  main Demo.env (mkFlags true "" "" true false "res-" []) (Demo.script "boom")
  = (Demo.script "boom", [EvStdout ("v0.1.0" +:+ nl)], Return 0%N).
Proof.
  destruct (version_flag_exits_before_any_check Demo.env
              (mkFlags true "" "" true false "res-" []) (Demo.script "boom")
              eq_refl) as [Heq _].
  exact Heq.
Defined.

(** C7, as stated, fails: with [-v], quiet mode without a mapping file is
    not rejected; the process prints the version and exits with 0. *)
Lemma version_flag_beats_quiet_mode_check :
  let fl := Demo.quiet true false "" ["rg"] in
  flagQuietMode fl = true /\ flagMappingFile fl = "" /\
  main Demo.env fl (Demo.script "boom")
  = (Demo.script "boom", [EvStdout ("v0.1.0" +:+ nl)], Return 0%N) /\
  exitCode (main Demo.env fl (Demo.script "boom")).2 <> Some 1%N.
Proof.
  repeat split. vm_compute. discriminate.
Qed.

(** C7, amended.  Without [-v]: an invocation with other than one
    positional argument prints the usage text on the standard error
    stream and exits with 1; with one positional argument, [-q] without
    [-m] and [-k] without [-q] each print their message on the standard
    error stream and exit with 1.  So [-q] without [-m], and [-k]
    without [-q], always end the process with status 1, the world
    untouched and nothing written but to the standard error stream. *)
Theorem argument_checks_reject_without_version_flag (E : Env) fl w :
  flagVersion fl = false ->
  (length (Args fl) <> 1 ->
   main E fl w
   = (w, [EvStderr (usage +:+ nl); EvPrintDefaults], Return 1%N)) /\
  (length (Args fl) = 1 ->
   flagQuietMode fl = true -> flagMappingFile fl = "" ->
   main E fl w
   = (w, [EvStderr ("`-q` must be used together with `-m`" +:+ nl)],
      Return 1%N)) /\
  (length (Args fl) = 1 ->
   flagContinue fl = true -> flagQuietMode fl = false ->
   main E fl w
   = (w, [EvStderr ("`-k` must be used together with `-q`" +:+ nl)],
      Return 1%N)) /\
  ((flagQuietMode fl = true /\ flagMappingFile fl = "") \/
   (flagContinue fl = true /\ flagQuietMode fl = false) ->
   exists tr,
     main E fl w = (w, tr, Return 1%N) /\ tr <> [] /\
     Forall (fun e => toStderr e = true) tr).
Proof.
  intros Hv.
  assert (Harity : length (Args fl) <> 1 ->
    main E fl w
    = (w, [EvStderr (usage +:+ nl); EvPrintDefaults], Return 1%N)).
  { intros Hn. unfold main, when, bind, emit, Exit, Usage, returnWith.
    rewrite Hv. simpl.
    destruct (Nat.eqb_spec (length (Args fl)) 1) as [Heq|_];
      [contradiction|reflexivity]. }
  assert (Hq : length (Args fl) = 1 ->
    flagQuietMode fl = true -> flagMappingFile fl = "" ->
    main E fl w
    = (w, [EvStderr ("`-q` must be used together with `-m`" +:+ nl)],
       Return 1%N)).
  { intros Hn Hquiet Hm.
    unfold main, when, bind, emit, Exit, fatal, returnWith.
    now rewrite Hv, Hn, Hquiet, Hm. }
  assert (Hk : length (Args fl) = 1 ->
    flagContinue fl = true -> flagQuietMode fl = false ->
    main E fl w
    = (w, [EvStderr ("`-k` must be used together with `-q`" +:+ nl)],
       Return 1%N)).
  { intros Hn Hcont Hquiet.
    unfold main, when, bind, emit, Exit, fatal, returnWith.
    now rewrite Hv, Hn, Hquiet, Hcont. }
  repeat split; auto.
  intros Hbad.
  destruct (decide (length (Args fl) = 1)) as [Hn|Hn].
  - destruct Hbad as [[Hquiet Hm]|[Hcont Hquiet]].
    + eexists. split; [now apply Hq|]. split; [discriminate|].
      repeat constructor.
    + eexists. split; [now apply Hk|]. split; [discriminate|].
      repeat constructor.
  - eexists. split; [now apply Harity|]. split; [discriminate|].
    repeat constructor.
Qed.

Lemma argument_checks_reject_without_version_flag_witness :
  main Demo.env (Demo.quiet false true "" ["rg"]) (Demo.script "boom")
  = (Demo.script "boom",
     [EvStderr ("`-q` must be used together with `-m`" +:+ nl)],
     Return 1%N).
Proof.
  destruct (argument_checks_reject_without_version_flag Demo.env
              (Demo.quiet false true "" ["rg"]) (Demo.script "boom")
              eq_refl) as (_ & Hq & _).
  apply Hq; reflexivity.
Defined.

(* ===================================================================== *)
(** ** The error of an aborted run *)

(** C1, at an import error holding a percent sign.  Records [A], [B],
    [C]; the import of [B] fails with ["disk 100% full"].  The run stops
    as it should (slots 0 and 1 imported, [C] not, nothing generated),
    but the error it returns went through [fmt.Errorf] as a format: it
    reads ["...: disk 100%!f(MISSING)ull"] and no longer holds the cause,
    while the line logged for the same failure under [continueOnError]
    holds it intact. *)
Theorem abort_error_garbles_a_cause_with_percent :
  let cause := "disk 100% full" in
  let aborted := batchImport Demo.env Demo.cfg false (Demo.script cause) in
  let continued := batchImport Demo.env Demo.cfg true (Demo.script cause) in
  importCalls aborted.1.2 = [0; 1] /\
  generateCalls aborted.1.2 = [] /\
  aborted.2
  = Return
      "Failed to import /rg/B as azurerm_b.res-1: disk 100%!f(MISSING)ull" /\
  contains cause
    "Failed to import /rg/B as azurerm_b.res-1: disk 100%!f(MISSING)ull"
  = false /\
  In (EvLog (mkLogger Stderr "")
        ("[ERROR] Failed to import /rg/B as azurerm_b.res-1: disk 100% full"
         +:+ nl))
     continued.1.2.
Proof.
  repeat split. vm_compute. tauto.
Qed.

(* ===================================================================== *)
(** ** The formatter on sample formats *)

Example Errorf_plain_ex : Fmt.Errorf "Failed to import a as b: boom" = "Failed to import a as b: boom".
Proof. reflexivity. Qed.

Example Errorf_pct_ex : Fmt.Errorf "disk 100% full" = "disk 100%!f(MISSING)ull".
Proof. reflexivity. Qed.

Example Errorf_pct_end : Fmt.Errorf "50%" = "50%!(NOVERB)".
Proof. reflexivity. Qed.

Example Errorf_pct_dot : Fmt.Errorf "rate 5%." = "rate 5%!.(MISSING)".
Proof. reflexivity. Qed.

Example Errorf_pct_dot_verb : Fmt.Errorf "rate 5%.f" = "rate 5%!f(MISSING)".
Proof. reflexivity. Qed.

Example Errorf_bad_index_in_precision : Fmt.Errorf "%.[]" = "%!](BADINDEX)".
Proof. reflexivity. Qed.

Example Errorf_index_then_end : Fmt.Errorf "%[3]" = "%!(NOVERB)".
Proof. reflexivity. Qed.

Example Errorf_open_bracket : Fmt.Errorf "%[d" = "%!d(BADINDEX)".
Proof. reflexivity. Qed.

Example Errorf_width_overflow : Fmt.Errorf "%2147483648d" = "%!(NOVERB)".
Proof. reflexivity. Qed.

Example Errorf_pct_pct : Fmt.Errorf "a%%b%[1]d%*d%.*f%[x]s%5.2z" = "a%b%!d(BADINDEX)%!(BADWIDTH)%!d(MISSING)%!(BADPREC)%!f(MISSING)%!s(BADINDEX)%!z(MISSING)".
Proof. reflexivity. Qed.

(* ===================================================================== *)
(** ** More on the import loop *)

Section LoopOrder.

Variable E : Env.
Variables (c : Meta E) (k : bool) (logger : Logger).

(** The slot a turn imports, if any, is its own. *)
Lemma step_importCalls i lst w w1 t1 r :
  bodyStep E c k logger i lst w (w1, t1, r) ->
  importCalls t1 = if attempted lst i then [i] else [].
Proof.
  unfold attempted.
  inversion 1 as [item Hi Hs|item ? item' Hi Hs|item ? item' err Hi Hs
                  |item ? item' err Hi Hs]; subst; simpl;
    now rewrite Hi, Hs.
Qed.

(** The slots are imported in increasing order. *)
Lemma run_sorted i n lst w o :
  loopRun E c k logger i n lst w o ->
  StronglySorted lt (importCalls o.1.2).
Proof.
  induction 1 as [|i n lst w w1 t1 lst1 w2 t2 r Hstep Hrun IH
                  |i n lst w w1 t1 e Hstep]; simpl in *.
  - constructor.
  - rewrite importCalls_app, (step_importCalls _ _ _ _ _ _ Hstep). simpl.
    destruct (attempted lst i); simpl; [|exact IH].
    constructor; [exact IH|].
    rewrite List.Forall_forall. intros j Hj.
    apply importCalls_In in Hj as (b & a & Hin).
    apply (run_imports _ _ _ _ _ _ _ _ _ Hrun) in Hin. simpl in Hin. lia.
  - rewrite (step_importCalls _ _ _ _ _ _ Hstep). simpl.
    destruct (attempted lst i); repeat constructor.
Qed.

(** Every import comes right after the line that announces it. *)
Lemma run_announced i n lst w o j b a :
  loopRun E c k logger i n lst w o ->
  In (EvImport j b a) o.1.2 ->
  exists t0 t1,
    o.1.2 = t0 ++ EvLog logger (importingLine b) :: EvImport j b a :: t1.
Proof.
  induction 1 as [|i n lst w w1 t1 lst1 w2 t2 r Hstep _ IH
                  |i n lst w w1 t1 e Hstep]; simpl in *; intros Hin.
  - destruct Hin.
  - apply in_app_iff in Hin as [Hin|Hin].
    + inversion Hstep; subst; in_cases Hin; injection Hin as <- <- <-.
      * now exists [], t2.
      * exists [], (errorLine logger item' err :: t2). reflexivity.
    + destruct (IH Hin) as (t0 & t3 & ->).
      exists (t1 ++ t0), t3. now rewrite <- app_assoc.
  - inversion Hstep; subst. in_cases Hin. injection Hin as <- <- <-.
    now exists [], [].
Qed.

(** The loop writes to the logger it was given. *)
Lemma run_logger i n lst w o lg line :
  loopRun E c k logger i n lst w o ->
  In (EvLog lg line) o.1.2 -> lg = logger.
Proof.
  induction 1 as [|i n lst w w1 t1 lst1 w2 t2 r Hstep _ IH
                  |i n lst w w1 t1 e Hstep]; simpl in *; intros Hin.
  - destruct Hin.
  - apply in_app_iff in Hin as [Hin|Hin]; [|auto].
    inversion Hstep; subst; unfold errorLine in Hin; in_cases Hin;
      now injection Hin.
  - inversion Hstep; subst; in_cases Hin; now injection Hin.
Qed.

(** Up to a failure that stops the loop, no record that is not skipped
    is passed over. *)
Lemma run_abort_calls i n lst w o :
  k = false -> loopRun E c k logger i n lst w o ->
  forall j b a e, In (EvImport j b a) o.1.2 -> ImportError a = Some e ->
  importCalls o.1.2 = List.filter (attempted lst) (seq i (S j - i)).
Proof.
  intros Hk.
  induction 1 as [|i n lst w w1 t1 lst1 w2 t2 r Hstep Hrun IH
                  |i n lst w w1 t1 e Hstep]; simpl in *;
    intros j b a e' Hin Ha.
  - destruct Hin.
  - apply in_app_iff in Hin as [Hin|Hin].
    + exfalso. inversion Hstep; subst; in_cases Hin;
        injection Hin as <- <- <-; congruence.
    + pose proof (run_imports _ _ _ _ _ _ _ _ _ Hrun _ _ _ Hin) as (Hj & _).
      rewrite importCalls_app, (IH _ _ _ _ Hin Ha),
        (step_importCalls _ _ _ _ _ _ Hstep). simpl.
      replace (S j - i) with (S (S j - S i)) by lia. simpl.
      rewrite (attempted_frame _ _ _ _ _ _ _ _ _ _ _ Hstep).
      now destruct (attempted lst i).
  - rewrite (step_importCalls _ _ _ _ _ _ Hstep). simpl.
    inversion Hstep as [| |item ? item' err Hi Hs|]; subst.
    in_cases Hin. injection Hin as <- <- <-.
    replace (S i - i) with 1 by lia. simpl.
    unfold attempted. now rewrite Hi, Hs.
Qed.

(** When every record is skipped the loop imports nothing and leaves
    the slice as it found it. *)
Lemma run_all_skipped i n lst w o :
  loopRun E c k logger i n lst w o ->
  Forall (fun item => Skip item = true) lst ->
  importCalls o.1.2 = [] /\ o.2 = Val lst.
Proof.
  intros Hrun Hall.
  assert (Hnone : forall j b a, ~ In (EvImport j b a) o.1.2).
  { intros j b a Hin.
    destruct (run_imports _ _ _ _ _ _ _ _ _ Hrun _ _ _ Hin) as (_ & Hb & Hs).
    rewrite Forall_lookup in Hall. rewrite (Hall _ _ Hb) in Hs.
    discriminate. }
  assert (Hcalls : importCalls o.1.2 = []).
  { destruct (importCalls o.1.2) as [|j l] eqn:Hc; [reflexivity|].
    assert (Hj : In j (importCalls o.1.2)) by (rewrite Hc; now left).
    apply importCalls_In in Hj as (b & a & Hin). now destruct (Hnone j b a). }
  split; [exact Hcalls|].
  destruct o as [[w' tr] [lst'|e|]]; simpl in *.
  - f_equal.
    pose proof (run_length _ _ _ _ _ _ _ _ _ lst' Hrun eq_refl) as Hlen.
    apply list_eq. intros j.
    destruct (lst !! j) as [item|] eqn:Hj.
    + destruct (run_final _ _ _ _ _ _ _ _ _ lst' Hrun eq_refl j item Hj)
        as [[Hsame _]|(a & Hin & _)]; [exact Hsame|].
      now destruct (Hnone j item a).
    + apply lookup_ge_None in Hj. apply lookup_ge_None. lia.
  - destruct (run_return _ _ _ _ _ _ _ _ _ e Hrun eq_refl)
      as (_ & tr0 & j & b & a & cause & Htr & _). simpl in Htr.
    exfalso. apply (Hnone j b a). rewrite Htr. apply in_app_iff.
    right. now left.
  - exfalso. exact (loopRun_no_panic _ _ _ _ _ _ _ _ _ _ Hrun).
Qed.

End LoopOrder.

(** The policy flag is read only after a failed import: a turn, and so
    a loop, in which no import leaves an error runs alike under both
    policies. *)
Lemma importBody_policy (E : Env) c k k' logger i lst w :
  (forall j b a, In (EvImport j b a) (importBody E c k logger i lst w).1.2 ->
                 ImportError a = None) ->
  importBody E c k' logger i lst w = importBody E c k logger i lst w.
Proof.
  unfold importBody. destruct (lst !! i) as [item|]; [|reflexivity].
  destruct (Skip item); [reflexivity|].
  unfold bind, call, Printf, Println, emit, ret, returnWith.
  destruct (Import E w c item) as [w1 item'].
  destruct (ImportError item') as [err|] eqn:Herr; [|reflexivity].
  intros Hok. exfalso.
  assert (Hnone : ImportError item' = None); [|congruence].
  apply (Hok i item). destruct k; simpl; auto.
Qed.

Lemma rangeLoop_policy (E : Env) c k k' logger n : forall i lst w,
  (forall j b a,
     In (EvImport j b a)
        (rangeLoop (seq i n) (importBody E c k logger) lst w).1.2 ->
     ImportError a = None) ->
  rangeLoop (seq i n) (importBody E c k' logger) lst w
  = rangeLoop (seq i n) (importBody E c k logger) lst w.
Proof.
  induction n as [|n IH]; intros i lst w Hok; simpl in *; [reflexivity|].
  unfold bind in *.
  assert (Hbody : importBody E c k' logger i lst w
                  = importBody E c k logger i lst w).
  { apply importBody_policy. intros j b a Hin. apply (Hok j b).
    destruct (importBody E c k logger i lst w) as [[w1 t1] [lst1|e|]];
      simpl in *; auto.
    destruct (rangeLoop (seq (S i) n) (importBody E c k logger) lst1 w1)
      as [[w2 t2] r]. simpl. apply in_app_iff. now left. }
  rewrite Hbody.
  destruct (importBody E c k logger i lst w) as [[w1 t1] [lst1|e|]];
    try reflexivity.
  rewrite (IH (S i) lst1 w1); [reflexivity|].
  intros j b a Hin. apply (Hok j b).
  destruct (rangeLoop (seq (S i) n) (importBody E c k logger) lst1 w1)
    as [[w2 t2] r]. simpl in *. apply in_app_iff. now right.
Qed.

(** A loop that runs to its end imports every record that is not
    skipped, under either policy. *)
Lemma run_complete_calls (E : Env) c k logger i n lst w o lst' :
  loopRun E c k logger i n lst w o -> o.2 = Val lst' ->
  importCalls o.1.2 = List.filter (attempted lst) (seq i n).
Proof.
  induction 1 as [|i n lst w w1 t1 lst1 w2 t2 r Hstep Hrun IH
                  |i n lst w w1 t1 e Hstep]; simpl in *; intros Hr.
  - reflexivity.
  - rewrite importCalls_app, (IH Hr),
      (step_importCalls _ _ _ _ _ _ _ _ _ _ Hstep),
      (attempted_frame _ _ _ _ _ _ _ _ _ _ _ Hstep).
    now destruct (attempted lst i).
  - discriminate.
Qed.

(* ===================================================================== *)
(** ** The phases of a run *)

(** Each phase is entered as soon as the one before it succeeded, and
    the imports run over the discovered slice. *)
Lemma phase_progress (E : Env) cfg k w :
  let tr := (batchImport E cfg k w).1.2 in
  let res := (batchImport E cfg k w).2 in
  ((forall name fl perm err, ~ In (EvOpenFile name fl perm (Some err)) tr) ->
   exists err, In (EvNewMeta cfg err) tr) /\
  (In (EvNewMeta cfg None) tr -> exists err, In (EvInit err) tr) /\
  (In (EvInit None) tr ->
   exists lst pre post,
     tr = pre ++ EvListResource lst :: post /\
     phases pre = [PNewMeta; PInit] /\
     (forall j b a, In (EvImport j b a) tr ->
                    lst !! j = Some b /\ Skip b = false) /\
     ((exists lst' gerr,
         phases post
         = repeat PImport (length (importCalls tr)) ++ [PGenerateCfg] /\
         importCalls tr = List.filter (attempted lst) (seq 0 (length lst)) /\
         last tr = Some (EvGenerateCfg lst' gerr)) \/
      (exists j b a cause,
         k = false /\
         phases post = repeat PImport (length (importCalls tr)) /\
         importCalls tr = List.filter (attempted lst) (seq 0 (S j)) /\
         last tr = Some (EvImport j b a) /\ ImportError a = Some cause /\
         exists err, res = Return err))).
Proof.
  destruct (batchImport E cfg k w) as [[w' tr] res] eqn:Heq. simpl.
  pose proof (batchImport_run E cfg k w) as Hrun. rewrite Heq in Hrun.
  inversion Hrun as
    [ w1 err Hlog Hopen
    | w0 pre logger w1 err Hsetup Hnew
    | w0 pre logger w1 c w2 err Hsetup Hnew Hinit
    | w0 pre logger w1 c w2 w3 lst0 w4 ltr err Hsetup Hnew Hinit Hlist Hloop
    | w0 pre logger w1 c w2 w3 lst0 w4 ltr lst' w5 gerr
        Hsetup Hnew Hinit Hlist Hloop Hgen ]; subst;
    try (pose proof (setup_events _ _ _ _ _ _ Hsetup) as Hpre);
    try (pose proof (run_events _ _ _ _ _ _ _ _ _ Hloop) as Hev;
         simpl in Hev).
  - split; [|split].
    + intros Hno. exfalso. eapply Hno. simpl. eauto.
    + intros Hin. in_cases Hin.
    + intros Hin. in_cases Hin.
  - split; [|split].
    + intros _. exists (Some err). apply in_app_iff. right. simpl. auto.
    + intros Hin. in_cases Hin.
      apply (setup_In _ _ _ _ _ _ _ Hsetup) in Hin. discriminate.
    + intros Hin. in_cases Hin.
      apply (setup_In _ _ _ _ _ _ _ Hsetup) in Hin. discriminate.
  - split; [|split].
    + intros _. exists None. apply in_app_iff. right. simpl. auto.
    + intros _. exists (Some err). apply in_app_iff. right. simpl. auto.
    + intros Hin. in_cases Hin.
      apply (setup_In _ _ _ _ _ _ _ Hsetup) in Hin. discriminate.
  - split; [|split].
    + intros _. exists None. apply in_app_iff. right. simpl. auto.
    + intros _. exists None. apply in_app_iff. right. simpl. auto 10.
    + intros _.
      destruct (run_return _ _ _ _ _ _ _ _ _ err Hloop eq_refl)
        as (Hk & tr0 & j & b & a & cause & Htr & Ha & _).
      simpl in Htr.
      assert (Hinj : In (EvImport j b a) ltr).
      { rewrite Htr. apply in_app_iff. right. now left. }
      pose proof (run_abort_calls _ _ _ _ _ _ _ _ _ Hk Hloop _ _ _ _
                    Hinj Ha) as Hcalls. simpl in Hcalls.
      assert (Hall : importCalls (pre ++ discovery logger cfg lst0 ++ ltr)
                     = importCalls ltr).
      { rewrite !importCalls_app, (setup_importCalls _ Hpre). reflexivity. }
      exists lst0,
        (pre ++ [EvLog logger ("New meta" +:+ nl); EvNewMeta cfg None;
                 EvLog logger ("Initialize" +:+ nl); EvInit None;
                 EvLog logger ("List resources" +:+ nl)]),
        (EvLog logger ("Import resources" +:+ nl) :: ltr).
      split; [now rewrite <- app_assoc|].
      split; [now rewrite phases_app, (setup_phases _ Hpre)|].
      split.
      * intros j' b' a' Hin. in_cases Hin.
        -- apply (setup_In _ _ _ _ _ _ _ Hsetup) in Hin. discriminate.
        -- now destruct (run_imports _ _ _ _ _ _ _ _ _ Hloop _ _ _ Hin)
             as (_ & Hb & Hs).
      * right. exists j, b, a, cause.
        change (pre ++ EvLog logger ("New meta" +:+ nl)
                :: EvNewMeta cfg None
                :: EvLog logger ("Initialize" +:+ nl)
                :: EvInit None
                :: EvLog logger ("List resources" +:+ nl)
                :: EvListResource lst0
                :: EvLog logger ("Import resources" +:+ nl) :: ltr)
          with (pre ++ discovery logger cfg lst0 ++ ltr).
        rewrite Hall. simpl.
        split; [exact Hk|].
        split; [exact (loopEvents_phases _ Hev)|].
        split; [exact Hcalls|].
        split; [|split; [exact Ha|now exists err]].
        rewrite Htr. repeat (rewrite last_app || rewrite last_cons).
        reflexivity.
  - split; [|split].
    + intros _. exists None. apply in_app_iff. right. simpl. auto.
    + intros _. exists None. apply in_app_iff. right. simpl. auto 10.
    + intros _.
      pose proof (run_complete_calls _ _ _ _ _ _ _ _ _ lst' Hloop eq_refl)
        as Hcalls. simpl in Hcalls.
      set (post := [EvLog logger ("Generate Terraform configurations" +:+ nl);
                    EvGenerateCfg lst' gerr]).
      assert (Hall : importCalls
                       (pre ++ discovery logger cfg lst0 ++ ltr ++ post)
                     = importCalls ltr).
      { rewrite !importCalls_app, (setup_importCalls _ Hpre). simpl.
        now rewrite app_nil_r. }
      exists lst0,
        (pre ++ [EvLog logger ("New meta" +:+ nl); EvNewMeta cfg None;
                 EvLog logger ("Initialize" +:+ nl); EvInit None;
                 EvLog logger ("List resources" +:+ nl)]),
        (EvLog logger ("Import resources" +:+ nl) :: ltr ++ post).
      split; [now rewrite <- app_assoc|].
      split; [now rewrite phases_app, (setup_phases _ Hpre)|].
      split.
      * intros j' b' a' Hin. in_cases Hin.
        -- apply (setup_In _ _ _ _ _ _ _ Hsetup) in Hin. discriminate.
        -- now destruct (run_imports _ _ _ _ _ _ _ _ _ Hloop _ _ _ Hin)
             as (_ & Hb & Hs).
      * left. exists lst', gerr.
        change (pre ++ EvLog logger ("New meta" +:+ nl)
                :: EvNewMeta cfg None
                :: EvLog logger ("Initialize" +:+ nl)
                :: EvInit None
                :: EvLog logger ("List resources" +:+ nl)
                :: EvListResource lst0
                :: EvLog logger ("Import resources" +:+ nl) :: ltr ++ post)
          with (pre ++ discovery logger cfg lst0 ++ ltr ++ post).
        rewrite Hall. simpl.
        split; [now rewrite phases_app, (loopEvents_phases _ Hev)|].
        split; [exact Hcalls|].
        repeat (rewrite last_app || rewrite last_cons). reflexivity.
Qed.

(** C5.  The engine operations of a run are an initial part of
    [NewMeta, Init, ListResource, Import ... Import, GenerateCfg], and
    each phase is entered as soon as the one before it succeeded:
    unless opening the log file failed the engine is constructed; once
    constructed it is initialised; once initialised, discovery is
    called, exactly once, after [NewMeta] and [Init] and before every
    import.  The imports run over the discovered slice: each import is
    of a record of that slice that is not skipped, and they cover all
    such records, to the end of the slice when the loop completes and
    up to the failed one when it aborts.  [GenerateCfg] is called, last,
    exactly when the loop did not abort.  When [NewMeta] or [Init]
    fails the run returns that error and no later phase is entered. *)
Theorem phases_run_in_fixed_order (E : Env) cfg k w :
  let tr := (batchImport E cfg k w).1.2 in
  let res := (batchImport E cfg k w).2 in
  ((exists n,
      phases tr `prefix_of`
        [PNewMeta; PInit; PListResource] ++ repeat PImport n
        ++ [PGenerateCfg]) /\
   (forall err, In (EvNewMeta cfg (Some err)) tr ->
                phases tr = [PNewMeta] /\ res = Return err) /\
   (forall err, In (EvInit (Some err)) tr ->
                phases tr = [PNewMeta; PInit] /\ res = Return err) /\
   (forall lst, In (EvListResource lst) tr ->
      ((exists lst' gerr, In (EvGenerateCfg lst' gerr) tr) <->
       (k = true \/
        forall j b a, In (EvImport j b a) tr -> ImportError a = None)))) /\
  ((forall name fl perm err, ~ In (EvOpenFile name fl perm (Some err)) tr) ->
   exists err, In (EvNewMeta cfg err) tr) /\
  (In (EvNewMeta cfg None) tr -> exists err, In (EvInit err) tr) /\
  (In (EvInit None) tr ->
   exists lst pre post,
     tr = pre ++ EvListResource lst :: post /\
     phases pre = [PNewMeta; PInit] /\
     (forall j b a, In (EvImport j b a) tr ->
                    lst !! j = Some b /\ Skip b = false) /\
     ((exists lst' gerr,
         phases post
         = repeat PImport (length (importCalls tr)) ++ [PGenerateCfg] /\
         importCalls tr = List.filter (attempted lst) (seq 0 (length lst)) /\
         last tr = Some (EvGenerateCfg lst' gerr)) \/
      (exists j b a cause,
         k = false /\
         phases post = repeat PImport (length (importCalls tr)) /\
         importCalls tr = List.filter (attempted lst) (seq 0 (S j)) /\
         last tr = Some (EvImport j b a) /\ ImportError a = Some cause /\
         exists err, res = Return err))).
Proof.
  intros tr res. split.
  - exact (phase_order E cfg k w).
  - exact (phase_progress E cfg k w).
Qed.

Lemma phases_run_in_fixed_order_witness :
  let tr := (batchImport Demo.env Demo.cfg true (Demo.scriptU "boom")).1.2 in
  exists pre post,
    tr = pre ++ EvListResource [Demo.A; Demo.U; Demo.B; Demo.C] :: post /\
    phases pre = [PNewMeta; PInit] /\
    phases post = [PImport; PImport; PImport; PGenerateCfg] /\
    importCalls tr = [0; 2; 3].
Proof.
  intro tr.
  destruct (phases_run_in_fixed_order Demo.env Demo.cfg true
              (Demo.scriptU "boom")) as (_ & _ & _ & Hrun).
  destruct Hrun as (lst & pre & post & Htr & Hpre & _ & Hend).
  - vm_compute. tauto.
  - fold tr in Htr, Hend.
    assert (Hlst : lst = [Demo.A; Demo.U; Demo.B; Demo.C]).
    { assert (Hin : In (EvListResource lst) tr).
      { rewrite Htr. apply in_app_iff. right. now left. }
      vm_compute in Hin.
      repeat (destruct Hin as [Hin|Hin]; [try discriminate Hin|]);
        [|contradiction]. now injection Hin. }
    subst lst. exists pre, post. split; [exact Htr|]. split; [exact Hpre|].
    destruct Hend as [(lst' & gerr & Hpost & Hcalls & _)
                     |(j & b & a & cause & Hk & _)]; [|discriminate].
    rewrite Hcalls in Hpost. split; [exact Hpost|exact Hcalls].
Defined.

(* ===================================================================== *)
(** ** More on [batchImport] *)

Lemma list_ascii_of_string_app s1 s2 :
  String.list_ascii_of_string (s1 +:+ s2)
  = String.list_ascii_of_string s1 ++ String.list_ascii_of_string s2.
Proof. induction s1 as [|ch s1 IH]; simpl; [reflexivity|]. now f_equal. Qed.

Lemma hasPercent_app s1 s2 :
  Fmt.hasPercent (s1 +:+ s2) = Fmt.hasPercent s1 || Fmt.hasPercent s2.
Proof.
  unfold Fmt.hasPercent. rewrite list_ascii_of_string_app.
  apply List.existsb_app.
Qed.

(** X1.  Without [continueOnError], the first import that leaves an
    error is the last event of the run.  Every record before it that is
    not skipped was imported, in order and with success; no record
    after it is imported; [GenerateCfg] is not called; and the run
    returns [fmt.Errorf] of the message made of the record's resource
    ID, its target address and the cause. *)
Theorem first_failed_import_ends_the_run
  (E : Env) cfg w w' tr res lst j b a cause :
  batchImport E cfg false w = (w', tr, res) ->
  In (EvListResource lst) tr ->
  In (EvImport j b a) tr -> ImportError a = Some cause ->
  (exists tr0, tr = tr0 ++ [EvImport j b a]) /\
  importCalls tr = List.filter (attempted lst) (seq 0 (S j)) /\
  (forall j' b' a', In (EvImport j' b' a') tr -> j' <> j ->
                    j' < j /\ ImportError a' = None) /\
  generateCalls tr = [] /\
  res = Return (Fmt.Errorf
                  ("Failed to import " +:+ ResourceID a +:+ " as "
                   +:+ TFAddr a +:+ ": " +:+ cause)).
Proof.
  intros Heq Hlst Hin Ha.
  destruct (batchImport_abort _ _ _ _ _ _ _ _ _ _ Heq Hin Ha)
    as (Hres & Hgen & tr0 & Htr & Hbefore).
  split; [now exists tr0|]. split; [|split; [|split]]; auto.
  - destruct (batch_reached _ _ _ _ _ _ _ _ Heq Hlst)
      as (pre & logger & c & w3 & w4 & ltr & lres & post
          & Hdec & Hpre & Hloop & Hpost).
    rewrite Hdec in *.
    rewrite (reached_importCalls _ pre logger cfg lst ltr _ _ _ _ post _
               Hpre Hpost).
    apply (reached_imports _ pre logger cfg lst ltr _ _ _ _ post _ _ _ _
             Hpre Hpost) in Hin.
    pose proof (run_abort_calls _ _ _ _ _ _ _ _ _ eq_refl Hloop _ _ _ _
                  Hin Ha) as Hcalls.
    simpl in Hcalls. exact Hcalls.
  - intros j' b' a' Hin' Hne. rewrite Htr in Hin'.
    apply in_app_iff in Hin' as [Hin'|Hin']; [exact (Hbefore _ _ _ Hin')|].
    in_cases Hin'. injection Hin' as <- _ _. congruence.
Qed.

Lemma first_failed_import_ends_the_run_witness :
  let o := batchImport Demo.env Demo.cfg false (Demo.scriptU "boom") in
  importCalls o.1.2 = [0; 2] /\ generateCalls o.1.2 = [] /\
  o.2 = Return "Failed to import /rg/B as azurerm_b.res-1: boom".
Proof.
  intro o.
  destruct (first_failed_import_ends_the_run Demo.env Demo.cfg
              (Demo.scriptU "boom") o.1.1 o.1.2 o.2
              [Demo.A; Demo.U; Demo.B; Demo.C] 2 Demo.B
              (mkItem "/rg/B" true "azurerm_b.res-1" (Some "boom")) "boom"
              eq_refl)
    as (_ & Hcalls & _ & Hgen & Hres).
  - vm_compute. tauto.
  - vm_compute. tauto.
  - reflexivity.
  - repeat split; assumption.
Defined.

(** X2.  When neither the resource ID, nor the target address, nor the
    cause holds a percent sign, the error of the aborted run is the
    message itself, ["Failed to import <ID> as <address>: <cause>"]. *)
Theorem abort_error_is_the_message_without_percent
  (E : Env) cfg w w' tr res j b a cause :
  batchImport E cfg false w = (w', tr, res) ->
  In (EvImport j b a) tr -> ImportError a = Some cause ->
  Fmt.hasPercent (ResourceID a) = false ->
  Fmt.hasPercent (TFAddr a) = false ->
  Fmt.hasPercent cause = false ->
  res = Return ("Failed to import " +:+ ResourceID a +:+ " as "
                +:+ TFAddr a +:+ ": " +:+ cause).
Proof.
  intros Heq Hin Ha Hid Haddr Hcause.
  apply (batchImport_abort_plain _ _ _ _ _ _ _ _ _ _ Heq Hin Ha).
  unfold failureMsg. rewrite !hasPercent_app, Hid, Haddr, Hcause.
  reflexivity.
Qed.

Lemma abort_error_is_the_message_without_percent_witness :
  (batchImport Demo.env Demo.cfg false (Demo.script "quota exceeded")).2
  = Return "Failed to import /rg/B as azurerm_b.res-1: quota exceeded".
Proof.
  apply (abort_error_is_the_message_without_percent Demo.env Demo.cfg
           (Demo.script "quota exceeded") _ _ _ 1 Demo.B
           (mkItem "/rg/B" true "azurerm_b.res-1" (Some "quota exceeded"))
           "quota exceeded" eq_refl).
  - vm_compute. tauto.
  - reflexivity.
  - reflexivity.
  - reflexivity.
  - reflexivity.
Defined.

(** X3.  Whatever the policy, the slots handed to [Import] during a run
    increase strictly: no record is imported twice and the imports
    follow discovery order. *)
Theorem records_are_imported_once_in_discovery_order (E : Env) cfg k w :
  StronglySorted lt (importCalls (batchImport E cfg k w).1.2).
Proof.
  destruct (batchImport E cfg k w) as [[w' tr] res] eqn:Heq. simpl.
  destruct (importCalls tr) as [|j l] eqn:Hcalls; [constructor|].
  assert (Hj : In j (importCalls tr)) by (rewrite Hcalls; now left).
  apply importCalls_In in Hj as (b & a & Hin).
  destruct (engine_work_after_discovery _ _ _ _ _ _ _ _ Heq Hin
              ltac:(left; eauto)) as [lst Hlst].
  destruct (batch_reached _ _ _ _ _ _ _ _ Heq Hlst)
    as (pre & logger & c & w3 & w4 & ltr & lres & post
        & -> & Hpre & Hloop & Hpost).
  rewrite <- Hcalls.
  rewrite (reached_importCalls _ pre logger cfg lst ltr _ _ _ _ post _
             Hpre Hpost).
  exact (run_sorted _ _ _ _ _ _ _ _ _ Hloop).
Qed.

(** X4.  Every call of [Import] comes right after the log line
    ["Importing <ID> as <address>"] for the record as it was found. *)
Theorem every_import_is_announced (E : Env) cfg k w j b a :
  In (EvImport j b a) (batchImport E cfg k w).1.2 ->
  exists logger t0 t1,
    (batchImport E cfg k w).1.2
    = t0 ++ EvLog logger ("Importing " +:+ ResourceID b +:+ " as "
                          +:+ TFAddr b +:+ nl)
         :: EvImport j b a :: t1.
Proof.
  destruct (batchImport E cfg k w) as [[w' tr] res] eqn:Heq. simpl.
  intros Hin.
  destruct (engine_work_after_discovery _ _ _ _ _ _ _ _ Heq Hin
              ltac:(left; eauto)) as [lst Hlst].
  destruct (batch_reached _ _ _ _ _ _ _ _ Heq Hlst)
    as (pre & logger & c & w3 & w4 & ltr & lres & post
        & -> & Hpre & Hloop & Hpost).
  apply (reached_imports _ pre logger cfg lst ltr _ _ _ _ post _ _ _ _
           Hpre Hpost) in Hin.
  destruct (run_announced _ _ _ _ _ _ _ _ _ _ _ _ Hloop Hin)
    as (t0 & t1 & Htr). simpl in Htr. subst ltr.
  exists logger, (pre ++ discovery logger cfg lst ++ t0), (t1 ++ post).
  unfold importingLine. now rewrite <- !app_assoc.
Qed.

Lemma every_import_is_announced_witness :
  exists logger t0 t1,
    (batchImport Demo.env Demo.cfg true (Demo.script "boom")).1.2
    = t0 ++ EvLog logger ("Importing /rg/C as azurerm_c.res-2" +:+ nl)
         :: EvImport 2 Demo.C Demo.C :: t1.
Proof.
  apply (every_import_is_announced Demo.env Demo.cfg true
           (Demo.script "boom") 2 Demo.C Demo.C).
  vm_compute. tauto.
Defined.

(** X5.  [batchImport] never panics, and it returns [nil] exactly when
    it called [GenerateCfg] and that call returned [nil]: no other path
    ends in success. *)
Theorem returns_nil_exactly_when_generation_succeeded (E : Env) cfg k w :
  let o := batchImport E cfg k w in
  o.2 <> Panic /\
  (o.2 = Val tt <-> exists lst', In (EvGenerateCfg lst' None) o.1.2).
Proof.
  destruct (batchImport E cfg k w) as [[w' tr] res] eqn:Heq. simpl.
  pose proof (batchImport_run E cfg k w) as Hrun. rewrite Heq in Hrun.
  split; [|split].
  - inversion Hrun as [| | | |? ? ? ? ? ? ? ? ? ? ? ? gerr]; subst;
      try discriminate. now destruct gerr.
  - intros ->.
    inversion Hrun as
      [| | | |w0 pre logger w1 c w2 w3 lst w4 ltr lst' w5 gerr
                Hsetup Hnew Hinit Hlist Hloop Hgen Hw]; subst.
    destruct gerr; [discriminate|].
    exists lst'. apply reached_In_post. simpl. auto.
  - intros (lst' & Hgen).
    destruct (engine_work_after_discovery _ _ _ _ _ _ _ _ Heq Hgen
                ltac:(right; eauto)) as [lst Hlst].
    destruct (batch_reached _ _ _ _ _ _ _ _ Heq Hlst)
      as (pre & logger & c & w3 & w4 & ltr & lres & post
          & -> & Hpre & Hloop & Hpost).
    pose proof (run_events _ _ _ _ _ _ _ _ _ Hloop) as Hev. simpl in Hev.
    now destruct (reached_generate _ _ _ _ _ _ _ _ _ _ _ _ _ _
                    Hpre Hev Hpost Hgen) as (_ & _ & ->).
Qed.

(** The logger of a run, as the configuration decides it. *)
Lemma setup_logger (E : Env) cfg w w0 pre logger :
  loggerSetup E cfg w w0 pre logger ->
  logger = (if String.eqb (Logfile cfg) ""
            then mkLogger Stderr ""
            else mkLogger (ToFile (Logfile cfg)) "aztfy") /\
  head pre = Some EvLogDiscard /\
  (forall lg line, ~ In (EvLog lg line) pre) /\
  (forall name fl perm err, In (EvOpenFile name fl perm err) pre ->
     Logfile cfg <> "" /\ name = Logfile cfg /\
     fl = [O_WRONLY; O_CREATE; O_APPEND] /\ perm = 420%N) /\
  (Logfile cfg <> "" ->
   pre = [EvLogDiscard;
          EvOpenFile (Logfile cfg) [O_WRONLY; O_CREATE; O_APPEND] 420%N
            None]).
Proof.
  inversion 1 as [Hlog|w1 Hlog Hopen]; subst.
  - rewrite Hlog. simpl.
    split; [reflexivity|]. split; [reflexivity|]. split; [|split].
    + intros lg line Hin. in_cases Hin.
    + intros name fl perm err Hin. in_cases Hin.
    + intros Hne. now destruct Hne.
  - destruct (String.eqb_spec (Logfile cfg) "") as [|_]; [contradiction|].
    split; [reflexivity|]. split; [reflexivity|]. split; [|split].
    + intros lg line Hin. in_cases Hin.
    + intros name fl perm err Hin. in_cases Hin.
      injection Hin as <- <- <- _. now repeat split.
    + reflexivity.
Qed.

(** X6.  The first thing a run does is to silence the global logger.
    All its own lines go to one logger: the standard error stream with
    no prefix when the configuration names no log file, and else that
    file with the prefix ["aztfy"].  A file is opened only when a log
    file is named, and then it is that file, write-only, created if
    missing, in append mode, with permissions 0644. *)
Theorem one_logger_for_the_whole_run (E : Env) cfg k w :
  let tr := (batchImport E cfg k w).1.2 in
  head tr = Some EvLogDiscard /\
  (forall logger line, In (EvLog logger line) tr ->
     logger = if String.eqb (Logfile cfg) ""
              then mkLogger Stderr ""
              else mkLogger (ToFile (Logfile cfg)) "aztfy") /\
  (forall name fl perm err, In (EvOpenFile name fl perm err) tr ->
     Logfile cfg <> "" /\ name = Logfile cfg /\
     fl = [O_WRONLY; O_CREATE; O_APPEND] /\ perm = 420%N) /\
  (Logfile cfg <> "" ->
   exists err,
     tr !! 1 = Some (EvOpenFile (Logfile cfg)
                       [O_WRONLY; O_CREATE; O_APPEND] 420%N err)).
Proof.
  destruct (batchImport E cfg k w) as [[w' tr] res] eqn:Heq. simpl.
  pose proof (batchImport_run E cfg k w) as Hrun. rewrite Heq in Hrun.
  assert (Hhead : forall pre rest, head pre = Some EvLogDiscard ->
            head (pre ++ rest) = Some EvLogDiscard).
  { intros [|e pre] rest; [discriminate|auto]. }
  inversion Hrun as
    [ w1 err Hlog Hopen
    | w0 pre logger w1 err Hsetup Hnew
    | w0 pre logger w1 c w2 err Hsetup Hnew Hinit
    | w0 pre logger w1 c w2 w3 lst0 w4 ltr err Hsetup Hnew Hinit Hlist Hloop
    | w0 pre logger w1 c w2 w3 lst0 w4 ltr lst' w5 gerr
        Hsetup Hnew Hinit Hlist Hloop Hgen ]; subst;
    try (destruct (setup_logger _ _ _ _ _ _ Hsetup)
           as (Hlg & Hhd & Hnolog & Hfile & Hpre));
    try (pose proof (run_events _ _ _ _ _ _ _ _ _ Hloop) as Hev;
         simpl in Hev);
    try (pose proof (fun lg line =>
                       run_logger _ _ _ _ _ _ _ _ _ lg line Hloop) as Hlgs;
         simpl in Hlgs).
  - split; [reflexivity|]. split; [|split].
    + intros lg line Hin. in_cases Hin.
    + intros name fl perm e Hin. in_cases Hin.
      injection Hin as <- <- <- _. now repeat split.
    + intros _. now exists (Some err).
  - split; [now apply Hhead|].
    split; [|split; [|intros Hne; rewrite (Hpre Hne); now exists None]].
    + intros lg line Hin. in_cases Hin;
        [now destruct (Hnolog lg line)|injection Hin as <- _; exact Hlg].
    + intros name fl perm e Hin. in_cases Hin. eauto.
  - split; [now apply Hhead|].
    split; [|split; [|intros Hne; rewrite (Hpre Hne); now exists None]].
    + intros lg line Hin. in_cases Hin;
        [now destruct (Hnolog lg line)|injection Hin as <- _; exact Hlg..].
    + intros name fl perm e Hin. in_cases Hin. eauto.
  - split; [now apply Hhead|].
    split; [|split; [|intros Hne; rewrite (Hpre Hne); now exists None]].
    + intros lg line Hin. in_cases Hin;
        try (injection Hin as <- _; exact Hlg).
      * now destruct (Hnolog lg line).
      * rewrite (Hlgs _ _ Hin). exact Hlg.
    + intros name fl perm e Hin. in_cases Hin; eauto.
      apply (loopEvents_In _ _ Hev) in Hin. discriminate.
  - split; [now apply Hhead|].
    split; [|split; [|intros Hne; rewrite (Hpre Hne); now exists None]].
    + intros lg line Hin. in_cases Hin;
        try (injection Hin as <- _; exact Hlg).
      * now destruct (Hnolog lg line).
      * rewrite (Hlgs _ _ Hin). exact Hlg.
    + intros name fl perm e Hin. in_cases Hin; eauto.
      apply (loopEvents_In _ _ Hev) in Hin. discriminate.
Qed.

(** X7.  [continueOnError] matters only once an import has failed: a
    run in which no import leaves an error has the same trace, the same
    result and the same final world under the other policy. *)
Theorem policy_matters_only_after_a_failure (E : Env) cfg k k' w :
  (forall j b a, In (EvImport j b a) (batchImport E cfg k w).1.2 ->
                 ImportError a = None) ->
  batchImport E cfg k' w = batchImport E cfg k w.
Proof.
  unfold batchImport, bind, call, Println, emit, ret, returnWith.
  intros Hok.
  destruct (negb (String.eqb (Logfile cfg) ""));
    [destruct (OpenFile E w (Logfile cfg) [O_WRONLY; O_CREATE; O_APPEND]
                 420%N) as [w0 [e|]]; simpl in *; [reflexivity|]
    |simpl in *];
    (destruct (NewMeta E _ cfg) as [w1 [c|e]]; simpl in *; [|reflexivity]);
    (destruct (Init E w1 c) as [w2 [e|]]; simpl in *; [reflexivity|]);
    (destruct (ListResource E w2 c) as [w3 lst]; simpl in * );
    unfold importLoop in *;
    match goal with
    | |- context [rangeLoop _ (importBody E c k' ?lg) lst w3] =>
        rewrite (rangeLoop_policy E c k k' lg (length lst) 0 lst w3);
          [reflexivity|]
    end;
    intros j b a Hin; apply (Hok j b a);
    match goal with
    | |- context [rangeLoop ?idx ?body lst w3] =>
        destruct (rangeLoop idx body lst w3) as [[w4 ltr] [lst'|e|]]
    end; simpl in *;
    try (destruct (GenerateCfg E w4 c lst') as [w5 [e|]]; simpl);
    rewrite ?in_app_iff; auto 20.
Qed.

Lemma policy_matters_only_after_a_failure_witness :
  batchImport Demo.env Demo.cfg false
    (Demo.mkScript [Demo.A; Demo.U; Demo.C] [] None None None None 0)
  = batchImport Demo.env Demo.cfg true
      (Demo.mkScript [Demo.A; Demo.U; Demo.C] [] None None None None 0).
Proof.
  apply (policy_matters_only_after_a_failure Demo.env Demo.cfg true false
           (Demo.mkScript [Demo.A; Demo.U; Demo.C] [] None None None None 0)).
  intros j b a Hin. vm_compute in Hin.
  repeat (destruct Hin as [Hin|Hin]; [try discriminate Hin|]);
    try contradiction; now injection Hin as _ _ <-.
Defined.

(** X8.  When discovery returns no record that is mapped, in particular
    when it returns none at all, nothing is imported and [GenerateCfg]
    is called once, with the slice as discovery returned it; what it
    returns decides the result. *)
Theorem nothing_to_import_when_all_are_skipped
  (E : Env) cfg k w w' tr res lst :
  batchImport E cfg k w = (w', tr, res) ->
  In (EvListResource lst) tr ->
  Forall (fun item => Skip item = true) lst ->
  importCalls tr = [] /\
  generateCalls tr = [lst] /\
  exists gerr,
    In (EvGenerateCfg lst gerr) tr /\
    res = match gerr with
          | Some err => Return ("generating Terraform configuration: " +:+ err)
          | None => Val tt
          end.
Proof.
  intros Heq Hlst Hall.
  destruct (batch_reached _ _ _ _ _ _ _ _ Heq Hlst)
    as (pre & logger & c & w3 & w4 & ltr & lres & post
        & -> & Hpre & Hloop & Hpost).
  pose proof (run_events _ _ _ _ _ _ _ _ _ Hloop) as Hev. simpl in Hev.
  destruct (run_all_skipped _ _ _ _ _ _ _ _ _ Hloop Hall) as [Hcalls Hval].
  simpl in Hcalls, Hval. subst lres.
  inversion Hpost as [|? w5 gerr Hgen]; subst.
  split; [|split].
  - now rewrite (reached_importCalls _ pre logger cfg lst ltr _ _ _ _ _ _
                   Hpre Hpost).
  - now rewrite (reached_generateCalls pre logger cfg lst ltr _ Hpre Hev).
  - exists gerr. split; [|reflexivity].
    apply reached_In_post. simpl. auto.
Qed.

Lemma nothing_to_import_when_all_are_skipped_witness :
  let o := batchImport Demo.env Demo.cfg false
             (Demo.mkScript [] [] None None None None 0) in
  importCalls o.1.2 = [] /\ generateCalls o.1.2 = [[]] /\ o.2 = Val tt.
Proof.
  intro o.
  destruct (nothing_to_import_when_all_are_skipped Demo.env Demo.cfg false
              (Demo.mkScript [] [] None None None None 0)
              o.1.1 o.1.2 o.2 [] eq_refl)
    as (Hcalls & Hgen & gerr & _ & _).
  - vm_compute. tauto.
  - constructor.
  - repeat split; assumption || reflexivity.
Defined.

(* ===================================================================== *)
(** ** [main] *)

Lemma batchImport_no_panic (E : Env) cfg k w :
  (batchImport E cfg k w).2 <> Panic.
Proof.
  destruct (batchImport E cfg k w) as [[w' tr] res] eqn:Heq. simpl.
  pose proof (batchImport_run E cfg k w) as Hrun. rewrite Heq in Hrun.
  inversion Hrun as [| | | |? ? ? ? ? ? ? ? ? ? ? ? gerr]; subst;
    try discriminate. now destruct gerr.
Qed.

Lemma main_run (E : Env) fl w : mainRun E fl w (main E fl w).
Proof.
  unfold main, when, fatal, Usage, Exit, invoke, bind, call, emit, ret,
    returnWith, panic.
  destruct (flagVersion fl) eqn:Hv; [now apply MainVersion|].
  destruct (Nat.eqb_spec (length (Args fl)) 1) as [Hn|Hn]; simpl;
    [|now apply MainUsage].
  destruct (Args fl) as [|rg [|x l]] eqn:Hargs; try discriminate Hn.
  assert (Hlen : length (Args fl) = 1) by now rewrite Hargs.
  simpl.
  destruct (flagQuietMode fl) eqn:Hq; simpl.
  - destruct (String.eqb_spec (flagMappingFile fl) "") as [Hm|Hm]; simpl;
      [now apply MainQuietWithoutMapping|].
    rewrite andb_false_r. simpl.
    assert (Hc : checked fl rg) by (repeat split; auto; congruence).
    destruct (NewConfig E w rg (flagOutputDir fl) (flagMappingFile fl)
                (flagPattern fl)) as [w1 [cfg|err]] eqn:Hcfg; simpl;
      [|now apply MainConfigFailed].
    pose proof (batchImport_no_panic E cfg (flagContinue fl) w1) as Hnp.
    destruct (batchImport E cfg (flagContinue fl) w1)
      as [[w2 tr] [[]|err|]] eqn:Hb; simpl.
    + rewrite app_nil_r. eapply MainBatchDone; eassumption.
    + eapply MainBatchFailed; eassumption.
    + now destruct Hnp.
  - rewrite andb_true_r.
    destruct (flagContinue fl) eqn:Hk; simpl;
      [now apply MainContinueWithoutQuiet|].
    assert (Hc : checked fl rg) by (repeat split; auto; congruence).
    destruct (NewConfig E w rg (flagOutputDir fl) (flagMappingFile fl)
                (flagPattern fl)) as [w1 [cfg|err]] eqn:Hcfg; simpl;
      [|now apply MainConfigFailed].
    destruct (NewProgram E w1 cfg) as [w2 [prog|err]] eqn:Hprog; simpl;
      [|eapply MainProgramFailed; eassumption].
    destruct (Start E w2 prog) as [w3 [err|]] eqn:Hstart; simpl.
    + eapply MainStartFailed; eassumption.
    + eapply MainStarted; eassumption.
Qed.

Lemma batch_events (E : Env) cfg k w :
  Forall (fun e => batchEvent e = true) (batchImport E cfg k w).1.2.
Proof.
  destruct (batchImport E cfg k w) as [[w' tr] res] eqn:Heq. simpl.
  pose proof (batchImport_run E cfg k w) as Hrun. rewrite Heq in Hrun.
  assert (Hsetup' : forall cfg w w0 pre logger,
            loggerSetup E cfg w w0 pre logger ->
            Forall (fun e => batchEvent e = true) pre).
  { inversion 1; subst; repeat constructor. }
  assert (Hloop' : forall l, Forall (fun e => loopEvent e = true) l ->
                             Forall (fun e => batchEvent e = true) l).
  { intros l Hl. eapply List.Forall_impl; [|exact Hl].
    intros [] He; try discriminate; reflexivity. }
  inversion Hrun as
    [ w1 err Hlog Hopen
    | w0 pre logger w1 err Hsetup Hnew
    | w0 pre logger w1 c w2 err Hsetup Hnew Hinit
    | w0 pre logger w1 c w2 w3 lst0 w4 ltr err Hsetup Hnew Hinit Hlist Hloop
    | w0 pre logger w1 c w2 w3 lst0 w4 ltr lst' w5 gerr
        Hsetup Hnew Hinit Hlist Hloop Hgen ]; subst;
    try (pose proof (Hloop' _ (run_events _ _ _ _ _ _ _ _ _ Hloop)) as Hev;
         simpl in Hev; rewrite List.Forall_forall in Hev);
    try (pose proof (Hsetup' _ _ _ _ _ Hsetup) as Hpre;
         rewrite List.Forall_forall in Hpre);
    rewrite List.Forall_forall; intros e Hin; in_cases Hin; subst;
    auto.
Qed.

Lemma batch_In_event (E : Env) cfg k w w' tr res e :
  batchImport E cfg k w = (w', tr, res) -> In e tr -> batchEvent e = true.
Proof.
  intros Heq Hin. pose proof (batch_events E cfg k w) as H.
  rewrite Heq in H. simpl in H. rewrite List.Forall_forall in H. auto.
Qed.

Lemma batch_success_ends_with_generation (E : Env) cfg k w w' tr :
  batchImport E cfg k w = (w', tr, Val tt) ->
  exists lst', last tr = Some (EvGenerateCfg lst' None).
Proof.
  intros Heq. pose proof (batchImport_run E cfg k w) as Hrun.
  rewrite Heq in Hrun.
  inversion Hrun as
    [| | | |w0 pre logger w1 c w2 w3 lst w4 ltr lst' w5 gerr
              Hsetup Hnew Hinit Hlist Hloop Hgen Hw]; subst.
  destruct gerr; [discriminate|]. exists lst'.
  repeat (rewrite last_app || rewrite last_cons). reflexivity.
Qed.

Lemma last_cons_snoc {A} (x y : A) l : last (x :: l ++ [y]) = Some y.
Proof. rewrite app_comm_cons. apply last_snoc. Qed.

(** X9.  [main] never panics and the process ends with status 0 or 1;
    the status is 1 exactly when the last thing the process did was to
    write to the standard error stream (an error message, or the usage
    text with the flag defaults). *)
Theorem exit_status_is_one_exactly_after_an_error_message
  (E : Env) fl w :
  let o := main E fl w in
  (exitCode o.2 = Some 0%N \/ exitCode o.2 = Some 1%N) /\
  (exitCode o.2 = Some 1%N <->
   exists e, last o.1.2 = Some e /\ toStderr e = true).
Proof.
  destruct (main E fl w) as [[w' tr] r] eqn:Heq. simpl.
  pose proof (main_run E fl w) as Hrun. rewrite Heq in Hrun.
  inversion Hrun as
    [ Hv | Hv Hn | Hv Hn Hq Hm | Hv Hn Hk Hq
    | rg w1 err Hc Hcfg
    | rg w1 cfg w2 tb err Hc Hq Hcfg Hb
    | rg w1 cfg w2 tb Hc Hq Hcfg Hb
    | rg w1 cfg w2 err Hc Hq Hcfg Hprog
    | rg w1 cfg w2 prog w3 err Hc Hq Hcfg Hprog Hstart
    | rg w1 cfg w2 prog w3 Hc Hq Hcfg Hprog Hstart ]; subst; simpl;
    try (split; [now right|]; split; [intros _|reflexivity];
         first [ now eexists; split; [reflexivity|]
               | eexists; split; [apply last_cons_snoc|reflexivity] ]).
  - split; [now left|]. split; [discriminate|].
    intros (e & [= <-] & He). discriminate.
  - split; [now left|]. split; [discriminate|].
    intros (e & Hlast & He). exfalso.
    destruct (batch_success_ends_with_generation _ _ _ _ _ _ Hb)
      as [lst' Hl].
    destruct tb as [|e0 tb]; [discriminate|].
    unfold configEvent in Hlast. rewrite last_cons_cons, Hl in Hlast.
    injection Hlast as <-. discriminate.
  - split; [now left|]. split; [discriminate|].
    intros (e & [= <-] & He). discriminate.
Qed.

(** X10.  Whatever the process does beyond writing to the terminal, it
    does on a command line that passed the checks (no [-v], exactly one
    positional argument, [-q] only with [-m], [-k] only with [-q]), and
    the first thing it does is to build the configuration from that
    argument and the values of [-o], [-m] and [-p]. *)
Theorem work_starts_only_on_a_checked_command_line
  (E : Env) fl w w' tr r e :
  main E fl w = (w', tr, r) ->
  In e tr -> consoleEvent e = false ->
  exists rg err rest,
    flagVersion fl = false /\ Args fl = [rg] /\
    (flagQuietMode fl = true -> flagMappingFile fl <> "") /\
    (flagContinue fl = true -> flagQuietMode fl = true) /\
    tr = EvNewConfig rg (flagOutputDir fl) (flagMappingFile fl)
           (flagPattern fl) err :: rest.
Proof.
  intros Heq Hin He.
  pose proof (main_run E fl w) as Hrun. rewrite Heq in Hrun.
  inversion Hrun as
    [ Hv | Hv Hn | Hv Hn Hq Hm | Hv Hn Hk Hq
    | rg w1 err [Hv [Ha [Hqm Hkq]]] Hcfg
    | rg w1 cfg w2 tb err [Hv [Ha [Hqm Hkq]]] Hq Hcfg Hb
    | rg w1 cfg w2 tb [Hv [Ha [Hqm Hkq]]] Hq Hcfg Hb
    | rg w1 cfg w2 err [Hv [Ha [Hqm Hkq]]] Hq Hcfg Hprog
    | rg w1 cfg w2 prog w3 err [Hv [Ha [Hqm Hkq]]] Hq Hcfg Hprog Hstart
    | rg w1 cfg w2 prog w3 [Hv [Ha [Hqm Hkq]]] Hq Hcfg Hprog Hstart ]; subst;
    try (exfalso; in_cases Hin; subst; discriminate);
    unfold configEvent; eexists rg, _, _; repeat split; eauto.
Qed.

Lemma work_starts_only_on_a_checked_command_line_witness :
  let fl := Demo.quiet false true "map.json" ["rg"] in
  let o := main Demo.env fl (Demo.script "boom") in
  exists rg err rest,
    flagVersion fl = false /\ Args fl = [rg] /\
    (flagQuietMode fl = true -> flagMappingFile fl <> "") /\
    (flagContinue fl = true -> flagQuietMode fl = true) /\
    o.1.2 = EvNewConfig rg (flagOutputDir fl) (flagMappingFile fl)
              (flagPattern fl) err :: rest.
Proof.
  intros fl o.
  apply (work_starts_only_on_a_checked_command_line Demo.env fl
           (Demo.script "boom") o.1.1 o.1.2 o.2 EvLogDiscard eq_refl).
  - vm_compute. tauto.
  - reflexivity.
Defined.

(** X11.  The two paths of [main] exclude each other: with [-q] the
    interactive program is neither built nor started; without [-q]
    nothing of [batchImport] happens, no log, no engine call.  And the
    interactive program is started only once it has been built. *)
Theorem quiet_and_interactive_paths_exclude_each_other (E : Env) fl w :
  let tr := (main E fl w).1.2 in
  (flagQuietMode fl = true -> Forall (fun e => uiEvent e = false) tr) /\
  (flagQuietMode fl = false -> Forall (fun e => batchEvent e = false) tr) /\
  (forall err, In (EvStart err) tr ->
               exists cfg, In (EvNewProgram cfg None) tr).
Proof.
  destruct (main E fl w) as [[w' tr] r] eqn:Heq. simpl.
  pose proof (main_run E fl w) as Hrun. rewrite Heq in Hrun.
  assert (Hbatch : forall cfg k w1 w2 tb rb,
            batchImport E cfg k w1 = (w2, tb, rb) ->
            Forall (fun e => uiEvent e = false) tb).
  { intros cfg k w1 w2 tb rb Hb. rewrite List.Forall_forall. intros e Hin.
    apply (batch_In_event _ _ _ _ _ _ _ _ Hb) in Hin.
    now destruct e. }
  inversion Hrun as
    [ Hv | Hv Hn | Hv Hn Hq Hm | Hv Hn Hk Hq
    | rg w1 err Hc Hcfg
    | rg w1 cfg w2 tb err Hc Hq Hcfg Hb
    | rg w1 cfg w2 tb Hc Hq Hcfg Hb
    | rg w1 cfg w2 err Hc Hq Hcfg Hprog
    | rg w1 cfg w2 prog w3 err Hc Hq Hcfg Hprog Hstart
    | rg w1 cfg w2 prog w3 Hc Hq Hcfg Hprog Hstart ]; subst;
    try (apply Hbatch in Hb as Hui);
    (split; [intros Hq'|split; [intros Hq'|intros e Hin]]);
    try congruence;
    try (repeat constructor; fail);
    try (in_cases Hin; fail);
    try (eexists; simpl; eauto; fail).
  - constructor; [reflexivity|]. apply List.Forall_app. split; [exact Hui|].
    now repeat constructor.
  - exfalso. in_cases Hin.
    apply (batch_In_event _ _ _ _ _ _ _ _ Hb) in Hin. discriminate.
  - constructor; [reflexivity|exact Hui].
  - exfalso. in_cases Hin.
    apply (batch_In_event _ _ _ _ _ _ _ _ Hb) in Hin. discriminate.
Qed.

(** X12.  Without [-k], an import that leaves an error ends the process:
    the error made from that record is printed on the standard error
    stream right after the failed import, nothing is generated, and the
    exit status is 1. *)
Theorem failed_import_without_k_exits_with_one
  (E : Env) fl w w' tr r j b a cause :
  main E fl w = (w', tr, r) ->
  flagContinue fl = false ->
  In (EvImport j b a) tr -> ImportError a = Some cause ->
  r = Return 1%N /\
  generateCalls tr = [] /\
  exists tr0,
    tr = tr0 ++ [EvImport j b a;
                 EvStderr (Fmt.Errorf
                             ("Failed to import " +:+ ResourceID a +:+ " as "
                              +:+ TFAddr a +:+ ": " +:+ cause) +:+ nl)].
Proof.
  intros Heq Hk Hin Ha.
  pose proof (main_run E fl w) as Hrun. rewrite Heq in Hrun.
  inversion Hrun as
    [ Hv | Hv Hn | Hv Hn Hq Hm | Hv Hn Hk' Hq
    | rg w1 err Hc Hcfg
    | rg w1 cfg w2 tb err Hc Hq Hcfg Hb
    | rg w1 cfg w2 tb Hc Hq Hcfg Hb
    | rg w1 cfg w2 err Hc Hq Hcfg Hprog
    | rg w1 cfg w2 prog w3 err Hc Hq Hcfg Hprog Hstart
    | rg w1 cfg w2 prog w3 Hc Hq Hcfg Hprog Hstart ]; subst;
    try (exfalso; in_cases Hin; fail);
    rewrite Hk in Hb; in_cases Hin;
    destruct (batchImport_abort _ _ _ _ _ _ _ _ _ _ Hb Hin Ha)
      as (Hres & Hgen & tr0 & -> & _); try discriminate.
  injection Hres as ->.
  split; [reflexivity|]. split.
  - unfold configEvent. simpl. rewrite generateCalls_app, Hgen. reflexivity.
  - exists (configEvent fl rg None :: tr0). simpl.
    now rewrite <- app_assoc.
Qed.

Lemma failed_import_without_k_exits_with_one_witness :
  exitCode
    (main Demo.env (Demo.quiet false false "map.json" ["rg"])
       (Demo.script "boom")).2 = Some 1%N.
Proof.
  destruct (failed_import_without_k_exits_with_one Demo.env
              (Demo.quiet false false "map.json" ["rg"]) (Demo.script "boom")
              _ _ _ 1 Demo.B
              (mkItem "/rg/B" true "azurerm_b.res-1" (Some "boom")) "boom"
              eq_refl eq_refl) as (Hr & _).
  - vm_compute. tauto.
  - reflexivity.
  - reflexivity.
Defined.

Lemma generation_decides_the_result (E : Env) cfg k w w' tr res lst gerr :
  batchImport E cfg k w = (w', tr, res) ->
  In (EvGenerateCfg lst gerr) tr ->
  res = match gerr with
        | Some err => Return ("generating Terraform configuration: " +:+ err)
        | None => Val tt
        end.
Proof.
  intros Heq Hgen.
  destruct (engine_work_after_discovery _ _ _ _ _ _ _ _ Heq Hgen
              ltac:(right; eauto)) as [lst0 Hlst].
  destruct (batch_reached _ _ _ _ _ _ _ _ Heq Hlst)
    as (pre & logger & c & w3 & w4 & ltr & lres & post
        & -> & Hpre & Hloop & Hpost).
  pose proof (run_events _ _ _ _ _ _ _ _ _ Hloop) as Hev. simpl in Hev.
  now destruct (reached_generate _ _ _ _ _ _ _ _ _ _ _ _ _ _
                  Hpre Hev Hpost Hgen) as (_ & _ & ->).
Qed.

(** X13.  Once [GenerateCfg] has been called, its result alone decides
    the exit status, whatever happened to the imports: 0 when it
    returned [nil], and 1 otherwise, with the wrapped error as the last
    line on the standard error stream.  So with [-k] the process exits
    with 0 even when imports failed. *)
Theorem exit_status_follows_generation
  (E : Env) fl w w' tr r lst gerr :
  main E fl w = (w', tr, r) ->
  In (EvGenerateCfg lst gerr) tr ->
  exitCode r = Some (match gerr with Some _ => 1%N | None => 0%N end) /\
  (forall err, gerr = Some err ->
     last tr = Some (EvStderr (("generating Terraform configuration: "
                                +:+ err) +:+ nl))).
Proof.
  intros Heq Hin.
  pose proof (main_run E fl w) as Hrun. rewrite Heq in Hrun.
  inversion Hrun as
    [ Hv | Hv Hn | Hv Hn Hq Hm | Hv Hn Hk' Hq
    | rg w1 err Hc Hcfg
    | rg w1 cfg w2 tb err Hc Hq Hcfg Hb
    | rg w1 cfg w2 tb Hc Hq Hcfg Hb
    | rg w1 cfg w2 err Hc Hq Hcfg Hprog
    | rg w1 cfg w2 prog w3 err Hc Hq Hcfg Hprog Hstart
    | rg w1 cfg w2 prog w3 Hc Hq Hcfg Hprog Hstart ]; subst;
    try (exfalso; in_cases Hin; fail); in_cases Hin;
    pose proof (generation_decides_the_result _ _ _ _ _ _ _ _ _ Hb Hin)
      as Hres;
    destruct gerr as [cause|]; try discriminate Hres.
  - injection Hres as ->.
    split; [reflexivity|]. intros err' [= <-]. apply last_cons_snoc.
  - split; [reflexivity|]. discriminate.
Qed.

Lemma exit_status_follows_generation_witness :
  exitCode
    (main Demo.env (Demo.quiet false true "map.json" ["rg"])
       (Demo.script "boom")).2 = Some 0%N.
Proof.
  destruct (exit_status_follows_generation Demo.env
              (Demo.quiet false true "map.json" ["rg"]) (Demo.script "boom")
              _ _ _
              [Demo.A; mkItem "/rg/B" true "azurerm_b.res-1" (Some "boom");
               Demo.C] None eq_refl) as (Hr & _).
  - vm_compute. tauto.
  - exact Hr.
Defined.

(** X14.  When building the configuration fails, the process prints that
    error and exits with 1; it does nothing else, in particular
    [batchImport] and the interactive program are not entered. *)
Theorem config_failure_ends_the_process
  (E : Env) fl w w' tr r rg o m p err :
  main E fl w = (w', tr, r) ->
  In (EvNewConfig rg o m p (Some err)) tr ->
  tr = [EvNewConfig rg o m p (Some err); EvStderr (err +:+ nl)] /\
  r = Return 1%N.
Proof.
  intros Heq Hin.
  pose proof (main_run E fl w) as Hrun. rewrite Heq in Hrun.
  inversion Hrun as
    [ Hv | Hv Hn | Hv Hn Hq Hm | Hv Hn Hk' Hq
    | rg' w1 err' Hc Hcfg
    | rg' w1 cfg w2 tb err' Hc Hq Hcfg Hb
    | rg' w1 cfg w2 tb Hc Hq Hcfg Hb
    | rg' w1 cfg w2 err' Hc Hq Hcfg Hprog
    | rg' w1 cfg w2 prog w3 err' Hc Hq Hcfg Hprog Hstart
    | rg' w1 cfg w2 prog w3 Hc Hq Hcfg Hprog Hstart ]; subst;
    unfold configEvent in *; in_cases Hin;
    try (apply (batch_In_event _ _ _ _ _ _ _ _ Hb) in Hin; discriminate).
  injection Hin as <- <- <- <- <-. now split.
Qed.

Lemma config_failure_ends_the_process_witness :
  let E := mkEnv Demo.Script unit unit "v0.1.0"
             (OpenFile Demo.env)
             (fun w _ _ _ _ => (w, inr "bad resource group"))
             (NewMeta Demo.env) (Init Demo.env) (ListResource Demo.env)
             (Import Demo.env) (GenerateCfg Demo.env)
             (NewProgram Demo.env) (Start Demo.env) in
  (main E (Demo.quiet false false "map.json" ["rg"]) (Demo.script "boom")).2
  = Return 1%N.
Proof.
  intro E.
  destruct (config_failure_ends_the_process E
              (Demo.quiet false false "map.json" ["rg"]) (Demo.script "boom")
              _ _ _ "rg" "" "map.json" "res-" "bad resource group" eq_refl)
    as [_ Hr].
  - vm_compute. tauto.
  - exact Hr.
Defined.

(** X15.  [batchImport] is entered only in quiet mode, with the
    configuration that [NewConfig] returned and the value of [-k].  Its
    trace follows the [NewConfig] call whole; when it returns an error
    that error is printed on the standard error stream and the exit
    status is 1, and when it returns [nil] the exit status is 0. *)
Theorem quiet_mode_runs_batchImport (E : Env) fl w w' tr r :
  main E fl w = (w', tr, r) ->
  In EvLogDiscard tr ->
  flagQuietMode fl = true /\
  exists rg w1 cfg,
    Args fl = [rg] /\
    NewConfig E w rg (flagOutputDir fl) (flagMappingFile fl) (flagPattern fl)
    = (w1, inl cfg) /\
    let b := batchImport E cfg (flagContinue fl) w1 in
    w' = b.1.1 /\
    tr = EvNewConfig rg (flagOutputDir fl) (flagMappingFile fl)
           (flagPattern fl) None
         :: b.1.2 ++ match b.2 with
                     | Return err => [EvStderr (err +:+ nl)]
                     | _ => []
                     end /\
    exitCode r = Some (match b.2 with Return _ => 1%N | _ => 0%N end).
Proof.
  intros Heq Hin.
  pose proof (main_run E fl w) as Hrun. rewrite Heq in Hrun.
  inversion Hrun as
    [ Hv | Hv Hn | Hv Hn Hq Hm | Hv Hn Hk' Hq
    | rg w1 err Hc Hcfg
    | rg w1 cfg w2 tb err [Hv [Ha _]] Hq Hcfg Hb
    | rg w1 cfg w2 tb [Hv [Ha _]] Hq Hcfg Hb
    | rg w1 cfg w2 err Hc Hq Hcfg Hprog
    | rg w1 cfg w2 prog w3 err Hc Hq Hcfg Hprog Hstart
    | rg w1 cfg w2 prog w3 Hc Hq Hcfg Hprog Hstart ]; subst;
    try (exfalso; unfold configEvent in Hin; in_cases Hin; fail);
    (split; [exact Hq|]); exists rg, w1, cfg;
    (split; [exact Ha|]); (split; [exact Hcfg|]);
    rewrite Hb; simpl; rewrite ?app_nil_r; now repeat split.
Qed.

Lemma quiet_mode_runs_batchImport_witness :
  let fl := Demo.quiet false false "map.json" ["rg"] in
  let o := main Demo.env fl (Demo.script "boom") in
  flagQuietMode fl = true /\
  exists rg w1 cfg,
    Args fl = [rg] /\
    NewConfig Demo.env (Demo.script "boom") rg (flagOutputDir fl)
      (flagMappingFile fl) (flagPattern fl) = (w1, inl cfg) /\
    let b := batchImport Demo.env cfg (flagContinue fl) w1 in
    o.1.1 = b.1.1 /\
    o.1.2 = EvNewConfig rg (flagOutputDir fl) (flagMappingFile fl)
              (flagPattern fl) None
            :: b.1.2 ++ match b.2 with
                        | Return err => [EvStderr (err +:+ nl)]
                        | _ => []
                        end /\
    exitCode o.2 = Some (match b.2 with Return _ => 1%N | _ => 0%N end).
Proof.
  intros fl o.
  apply (quiet_mode_runs_batchImport Demo.env fl (Demo.script "boom")
           o.1.1 o.1.2 o.2 eq_refl).
  vm_compute. tauto.
Defined.

(** X16.  Without [-q], an error of the interactive program ends the
    process with status 1 and that error as the last line on the
    standard error stream: when building it fails it is never started,
    and once it has been started the exit status is 0 exactly when
    [Start] returned [nil]. *)
Theorem interactive_errors_exit_with_one (E : Env) fl w w' tr r :
  main E fl w = (w', tr, r) ->
  (forall cfg err, In (EvNewProgram cfg (Some err)) tr ->
     r = Return 1%N /\ last tr = Some (EvStderr (err +:+ nl)) /\
     forall serr, ~ In (EvStart serr) tr) /\
  (forall serr, In (EvStart serr) tr ->
     exitCode r = Some (match serr with Some _ => 1%N | None => 0%N end) /\
     forall err, serr = Some err -> last tr = Some (EvStderr (err +:+ nl))).
Proof.
  intros Heq.
  pose proof (main_run E fl w) as Hrun. rewrite Heq in Hrun.
  inversion Hrun as
    [ Hv | Hv Hn | Hv Hn Hq Hm | Hv Hn Hk' Hq
    | rg w1 err' Hc Hcfg
    | rg w1 cfg' w2 tb err' Hc Hq Hcfg Hb
    | rg w1 cfg' w2 tb Hc Hq Hcfg Hb
    | rg w1 cfg' w2 err' Hc Hq Hcfg Hprog
    | rg w1 cfg' w2 prog w3 err' Hc Hq Hcfg Hprog Hstart
    | rg w1 cfg' w2 prog w3 Hc Hq Hcfg Hprog Hstart ]; subst;
    unfold configEvent;
    (split; [intros cfg err Hin|intros serr Hin]); in_cases Hin;
    try (apply (batch_In_event _ _ _ _ _ _ _ _ Hb) in Hin; discriminate).
  - injection Hin as <- <-. split; [reflexivity|]. split; [reflexivity|].
    intros serr Hin. in_cases Hin.
  - injection Hin as <-. split; [reflexivity|].
    now intros err [= <-].
  - injection Hin as <-. split; [reflexivity|]. discriminate.
Qed.

Lemma interactive_errors_exit_with_one_witness :
  let o := main Demo.env (mkFlags false "" "" false false "res-" ["rg"])
             (Demo.script "boom") in
  exitCode o.2 = Some 0%N.
Proof.
  intro o.
  destruct (interactive_errors_exit_with_one Demo.env
              (mkFlags false "" "" false false "res-" ["rg"])
              (Demo.script "boom") o.1.1 o.1.2 o.2 eq_refl) as [_ Hstart].
  destruct (Hstart None) as [Hr _].
  - vm_compute. tauto.
  - exact Hr.
Defined.
